(** * Phoebe: scattering-matrix solver core, shallow embedding

    The development follows the C++ sources:
    - [MPIcontroller] (mpiController.cpp, two revisions): work division and
      the BLACS process grid fixed at start-up;
    - [SMatrix] (SMatrix.cpp): the [Matrix<T>] wrapper that dispatches to a
      serial or a distributed store;
    - [PhononTransportApp] (phonon_transport_app.cpp): the driver of the
      RTA, Omini-Sparavigna, variational and relaxons solvers;
    - [ScatteringMatrix] and [VectorBTE]: operations whose bodies are not
      part of the sources at hand and are modelled from the specification.

    Machine integers are values of [Z] with their wrap-around written out.
    Double-precision scalars are kept abstract in the driver (a type with a
    boolean comparison) and are replaced by exact numbers ([Z], [Q]) where a
    law of arithmetic is the subject. *)

From Stdlib Require Import ZArith QArith Qabs Qfield Lia Ascii String.
From stdpp Require Import base list strings.

Local Open Scope Z_scope.

(** ** Fatal errors *)

Module Exceptions.

(** Modelled from the spec: the class [Error] of exceptions.h, which is not
    among the sources.  Every use in the sources is a declaration
    [Error e("message")] in statement position; the specification calls
    these conditions fatal, so constructing an [Error] ends the run with the
    message and nothing after it is executed. *)
Inductive result (A : Type) : Type :=
| Ok (a : A)
| Fatal (msg : string).

Arguments Ok {A} a.
Arguments Fatal {A} msg.

Definition is_fatal {A} (r : result A) : bool :=
  match r with Fatal _ => true | Ok _ => false end.

End Exceptions.

Import Exceptions.

(** ** Fixed-width integers of the C++ sources *)

Module CInt.

Definition INT_MAX : Z := 2 ^ 31 - 1.
Definition SIZE_MAX : Z := 2 ^ 64 - 1.

(** Conversion to [size_t] (64-bit unsigned, reduction modulo 2^64). *)
Definition to_size_t (z : Z) : Z := z mod 2 ^ 64.

(** Conversion to [int] (32-bit two's complement). *)
Definition to_int (z : Z) : Z := (z + 2 ^ 31) mod 2 ^ 32 - 2 ^ 31.

(** [a * b] and [a / b] on [size_t] operands. *)
Definition mul_size_t (a b : Z) : Z := to_size_t (a * b).
Definition div_size_t (a b : Z) : Z := a / b.

End CInt.

Import CInt.

(** ** MPIcontroller *)

Module MPIcontroller.

Record t : Type := mk {
  size : Z;                       (* int size: number of MPI processes *)
  rank : Z;                       (* int rank *)
  workDivisionHeads : list Z;     (* elements of type int, see below *)
  workDivisionTails : list Z;
  numBlasRows_ : Z;
  numBlasCols_ : Z;
  myBlasRow_ : Z;
  myBlasCol_ : Z
}.

Definition set_work (c : t) (hs ts : list Z) : t :=
  mk (size c) (rank c) hs ts
     (numBlasRows_ c) (numBlasCols_ c) (myBlasRow_ c) (myBlasCol_ c).

(** [std::vector::resize(n)]: truncate, or pad with value-initialised
    (zero) elements. *)
Definition resize (n : nat) (v : list Z) : list Z :=
  take n v ++ replicate (n - length v) 0.

(** The right-hand sides of the two assignments of the loop body.  The
    operands are [size_t numTasks], [int r] and [int size]: the usual
    arithmetic conversions bring [r], [r+1] (computed in [int]) and [size]
    to [size_t], the product wraps modulo 2^64 and the division is the
    unsigned one. *)
Definition headOf (numTasks sz r : Z) : Z :=
  div_size_t (mul_size_t numTasks (to_size_t r)) (to_size_t sz).

Definition tailOf (numTasks sz r : Z) : Z :=
  div_size_t (mul_size_t numTasks (to_size_t (to_int (r + 1)))) (to_size_t sz).

(** [for (int r = 0; r < size; r++) { heads[r] = ...; tails[r] = ...; }]
    with [n] the number of iterations still to run.  The header that
    declares the two vectors is not among the sources.  Their elements are
    [int]: it is the type [workHead] and [workTail] return them with, and
    the one the debugging print in the loop body formats them with ([%3d]);
    so each assignment narrows the [size_t] value of its right-hand side to
    [int].  (Were the elements wider, the same narrowing would happen at the
    [return] of [workHead] and [workTail], and every value they hand out
    would be the same.) *)
Fixpoint divideWork_loop (n : nat) (r : Z) (numTasks sz : Z)
    (hs ts : list Z) : list Z * list Z :=
  match n with
  | O => (hs, ts)
  | S n' =>
      let hs' := <[Z.to_nat r := to_int (headOf numTasks sz r)]> hs in
      let ts' := <[Z.to_nat r := to_int (tailOf numTasks sz r)]> ts in
      divideWork_loop n' (r + 1) numTasks sz hs' ts'
  end.

(** mpiController.cpp, later revision: clear, resize, fill. *)
Definition divideWork (c : t) (numTasks : Z) : t :=
  let hs := resize (Z.to_nat (size c)) [] in
  let ts := resize (Z.to_nat (size c)) [] in
  let '(hs', ts') :=
    divideWork_loop (Z.to_nat (size c)) 0 numTasks (size c) hs ts in
  set_work c hs' ts'.

(** mpiController.cpp, earlier revision: resize and fill, no clear. *)
Definition divideWork_noclear (c : t) (numTasks : Z) : t :=
  let hs := resize (Z.to_nat (size c)) (workDivisionHeads c) in
  let ts := resize (Z.to_nat (size c)) (workDivisionTails c) in
  let '(hs', ts') :=
    divideWork_loop (Z.to_nat (size c)) 0 numTasks (size c) hs ts in
  set_work c hs' ts'.

(** [int workHead()] and [int workTail()], with the conversion to the
    return type; an index outside the vector is undefined behaviour in the
    source and [None] here. *)
Definition workHead (c : t) : option Z :=
  to_int <$> workDivisionHeads c !! Z.to_nat (rank c).

Definition workTail (c : t) : option Z :=
  to_int <$> workDivisionTails c !! Z.to_nat (rank c).

(** The controller of the process of rank [r]: every process runs the same
    calls on the same [size] and differs from the others by its rank. *)
Definition on_rank (c : t) (r : Z) : t :=
  mk (size c) r (workDivisionHeads c) (workDivisionTails c)
     (numBlasRows_ c) (numBlasCols_ c) (myBlasRow_ c) (myBlasCol_ c).

(** Process [r] owns global index [i] after a call of [divideWork]: [i]
    lies in the range that [workHead()] and [workTail()] hand out on that
    process, which is the only way the program reads the division. *)
Definition owns (c : t) (r i : Z) : Prop :=
  exists h tl,
    workHead (on_rank c r) = Some h /\
    workTail (on_rank c r) = Some tl /\
    h <= i < tl.

(** Boolean version, for evaluation. *)
Definition ownsb (c : t) (r i : Z) : bool :=
  match workHead (on_rank c r), workTail (on_rank c r) with
  | Some h, Some tl => (h <=? i) && (i <? tl)
  | _, _ => false
  end.

(** The cut points of the specification: process [r] of [P] starts at
    [numTasks*r/P], in exact integer arithmetic. *)
Definition cut (numTasks P r : Z) : Z := numTasks * r / P.

(** The work division held by [c] is the one the specification describes
    for [numTasks] tasks: on rank [r], [workHead()] and [workTail()] return
    cut [r] and cut [r+1], every index below [numTasks] is owned by exactly
    one rank, and nothing else is owned. *)
Definition is_partition (c : t) (numTasks : Z) : Prop :=
  (forall r, 0 <= r < size c ->
     workHead (on_rank c r) = Some (cut numTasks (size c) r) /\
     workTail (on_rank c r) = Some (cut numTasks (size c) (r + 1))) /\
  (forall i, 0 <= i < numTasks ->
     exists r, 0 <= r < size c /\ owns c r i /\
       forall r', 0 <= r' < size c -> owns c r' i -> r' = r) /\
  (forall r i, 0 <= r < size c -> owns c r i -> 0 <= i < numTasks).

(** *** The constructor and the BLACS grid *)

Definition square_msg : string :=
  "Phoebe needs a square number of MPI processes".

(** [(int)(sqrt(size))].  [size] is an [int], hence exactly representable
    as a double; the IEEE square root is correctly rounded and for
    arguments below 2^31 its truncation is the integer square root. *)
Definition int_sqrt (sz : Z) : Z := Z.sqrt sz.

(** The constructor under [MPI_AVAIL].  [world_size] and [world_rank] are
    what [MPI_Comm_size] and [MPI_Comm_rank] report; [my_row], [my_col] are
    the coordinates [blacs_gridinfo_] reports for the grid that
    [blacs_gridinit_] was asked for, whose shape it returns unchanged. *)
Definition construct (world_size world_rank my_row my_col : Z) : result t :=
  let numBlasRows := int_sqrt world_size in
  let numBlasCols := numBlasRows in
  if world_size >? to_int (numBlasRows * numBlasCols)
  then Fatal square_msg
  else Ok (mk world_size world_rank [] [] numBlasRows numBlasCols
              my_row my_col).

(** The constructor without [MPI_AVAIL]. *)
Definition construct_serial : result t :=
  Ok (mk 1 0 [] [] 1 1 0 0).

Definition is_square (n : Z) : Prop := exists k, 0 <= k /\ n = k * k.

End MPIcontroller.

(** ** The matrix wrapper of SMatrix.cpp *)

Module SMatrix.

(** [Matrix<T>]: a flag and the two stores, of which the flag selects the
    one in use.  [M] is the serial store ([mat]), [P] the distributed one
    ([pmat]). *)
Record Matrix (M P : Type) : Type := mkMatrix {
  isDistributed : bool;
  mat : M;
  pmat : P
}.

Arguments mkMatrix {M P} _ _ _.
Arguments isDistributed {M P} _.
Arguments mat {M P} _.
Arguments pmat {M P} _.

Definition set_mat {M P} (c : Matrix M P) (m : M) : Matrix M P :=
  mkMatrix (isDistributed c) m (pmat c).

Definition set_pmat {M P} (c : Matrix M P) (p : P) : Matrix M P :=
  mkMatrix (isDistributed c) (mat c) p.

Section Kernels.

(** Stores and scalars of the two specialisations: [D*] for [double],
    [C*] for [std::complex<double>]; [E] is the type of an eigenvalue. *)
Context {DM DP CM CP E : Type}.

(** The kernels of the stores; their classes are not among the sources.
    [mat.prod(x, trans1, trans2)] and [pmat.prod(x, trans1, trans2)] take
    the two flags, [pmat.prod(x)] is the call with the flags left out. *)
Variable dmat_prod : DM -> DM -> ascii -> ascii -> DM.
Variable dpmat_prod1 : DP -> DP -> DP.
Variable cmat_prod : CM -> CM -> ascii -> ascii -> CM.
Variable cpmat_prod : CP -> CP -> ascii -> ascii -> CP.

(** [mat.diagonalize()] and [pmat.diagonalize()] are called on a member of
    the receiver and are not declared const in anything at hand, so each
    returns the store it leaves behind next to its result, a tuple of the
    eigenvalues and an object from which [.mat] or [.pmat] is read. *)
Variable dmat_diagonalize : DM -> DM * (list E * Matrix DM DP).
Variable dpmat_diagonalize : DP -> DP * (list E * Matrix DM DP).
Variable cmat_diagonalize : CM -> CM * (list E * Matrix CM CP).
Variable cpmat_diagonalize : CP -> CP * (list E * Matrix CM CP).

(** [Matrix<std::complex<double>>::prod] *)
Definition prod_complex (this that : Matrix CM CP) (trans1 trans2 : ascii)
    : Matrix CM CP :=
  let c := this in
  if isDistributed this
  then set_pmat c (cpmat_prod (pmat this) (pmat that) trans1 trans2)
  else set_mat c (cmat_prod (mat this) (mat that) trans1 trans2).

(** [Matrix<double>::prod] *)
Definition prod_double (this that : Matrix DM DP) (trans1 trans2 : ascii)
    : Matrix DM DP :=
  let c := this in
  if isDistributed this
  then set_pmat c (dpmat_prod1 (pmat this) (pmat that))
  else set_mat c (dmat_prod (mat this) (mat that) trans1 trans2).

(** [Matrix<std::complex<double>>::diagonalize]: the receiver after the
    call, then the returned pair.  [eigvecs] is copied from the receiver
    before the kernel runs. *)
Definition diagonalize_complex (this : Matrix CM CP)
    : Matrix CM CP * (list E * Matrix CM CP) :=
  let eigvecs := this in
  if isDistributed this
  then
    let '(p', tup) := cpmat_diagonalize (pmat this) in
    (set_pmat this p', (fst tup, set_pmat eigvecs (pmat (snd tup))))
  else
    let '(m', tup) := cmat_diagonalize (mat this) in
    (set_mat this m', (fst tup, set_mat eigvecs (mat (snd tup)))).

(** [Matrix<double>::diagonalize] *)
Definition diagonalize_double (this : Matrix DM DP)
    : Matrix DM DP * (list E * Matrix DM DP) :=
  let eigvecs := this in
  if isDistributed this
  then
    let '(p', tup) := dpmat_diagonalize (pmat this) in
    (set_pmat this p', (fst tup, set_pmat eigvecs (pmat (snd tup))))
  else
    let '(m', tup) := dmat_diagonalize (mat this) in
    (set_mat this m', (fst tup, set_mat eigvecs (mat (snd tup)))).

End Kernels.

End SMatrix.

(** ** Dense integer matrices: an instance of the store kernels

    Small integers are exact in double precision, so these matrices give
    inputs on which the wrapper can be evaluated. *)

Module Dense.

Definition matrix : Type := list (list Z).

Definition row_dot (r c : list Z) : Z :=
  foldr Z.add 0 (zip_with Z.mul r c).

Definition column (j : nat) (m : matrix) : list Z :=
  map (fun row => nth j row 0) m.

Definition transpose (m : matrix) : matrix :=
  match m with
  | [] => []
  | r :: _ => map (fun j => column j m) (seq 0 (length r))
  end.

Definition matmul (a b : matrix) : matrix :=
  map (fun r => map (fun c => row_dot r c) (transpose b)) a.

(** The BLAS reading of a flag on a real matrix: 'T' and 'C' transpose,
    anything else does not. *)
Definition op (trans : ascii) (m : matrix) : matrix :=
  if (Ascii.eqb trans "T" || Ascii.eqb trans "C")%char%bool
  then transpose m else m.

(** Serial kernel [mat.prod(that, trans1, trans2)]. *)
Definition mat_prod (a b : matrix) (trans1 trans2 : ascii) : matrix :=
  matmul (op trans1 a) (op trans2 b).

(** Modelled from the spec: the distributed kernel, "a distributed
    (ScaLAPACK-like) kernel" whose results are those of the local one.  The
    distributed store is represented by its global content. *)
Definition pmat_prod (a b : matrix) (trans1 trans2 : ascii) : matrix :=
  matmul (op trans1 a) (op trans2 b).

(** Modelled from the spec: [pmat.prod(that)], the distributed kernel
    called without flags, that is the plain product. *)
Definition pmat_prod1 (a b : matrix) : matrix :=
  pmat_prod a b "N" "N".

(** The same global content placed in a wrapper of either mode. *)
Definition serial (a : matrix) : SMatrix.Matrix matrix matrix :=
  SMatrix.mkMatrix false a [].

Definition distributed (a : matrix) : SMatrix.Matrix matrix matrix :=
  SMatrix.mkMatrix true [] a.

(** The content of the store in use. *)
Definition content (c : SMatrix.Matrix matrix matrix) : matrix :=
  if SMatrix.isDistributed c then SMatrix.pmat c else SMatrix.mat c.

Definition prod_double := SMatrix.prod_double mat_prod pmat_prod1.

(** Toy eigen-kernels for 1x1 matrices (the entry is the eigenvalue, the
    eigenvector is 1); they leave the store they are called on as it is. *)
Definition mat_diagonalize (m : matrix)
    : matrix * (list Z * SMatrix.Matrix matrix matrix) :=
  (m, (concat m, SMatrix.mkMatrix false [[1]] [])).

Definition pmat_diagonalize (m : matrix)
    : matrix * (list Z * SMatrix.Matrix matrix matrix) :=
  (m, (concat m, SMatrix.mkMatrix true [] [[1]])).

(** Modelled from the spec: a distributed eigen-kernel that works in
    place, as the specification has it for the Distributed Matrix
    ("transformed in place by [a2Omega()]/[diagonalize()]", "overwritten by
    eigenvector content"): the same toy kernel, which leaves the
    eigenvector in the store it was called on. *)
Definition pmat_diagonalize_in_place (m : matrix)
    : matrix * (list Z * SMatrix.Matrix matrix matrix) :=
  ([[1]], (concat m, SMatrix.mkMatrix true [] [[1]])).

End Dense.

(** ** The phonon transport driver (phonon_transport_app.cpp) *)

Module PhononTransportApp.

(** The getters of [Context] that [run] reads. *)
Record Context (Sc : Type) : Type := mkContext {
  getSolverBTE : list string;
  getScatteringMatrixInMemory : bool;
  getMaxIterationsBTE : Z;               (* int *)
  getConvergenceThresholdBTE : Sc;       (* double *)
  getUseSymmetries : bool
}.

Arguments mkContext {Sc} _ _ _ _ _.
Arguments getSolverBTE {Sc} _.
Arguments getScatteringMatrixInMemory {Sc} _.
Arguments getMaxIterationsBTE {Sc} _.
Arguments getConvergenceThresholdBTE {Sc} _.
Arguments getUseSymmetries {Sc} _.

(** What a run does to the outside, in program order.  Console banners
    printed by the head process are left out.  [K] is the state of the
    [PhononThermalConductivity] object, carried by the events that show or
    write it. *)
Inductive event (K : Type) : Type :=
| ParsePhHarmonic
| MakeFullPoints
| BuildBandStructure
| ParseIFC3
| ConstructScatteringMatrix
| Setup                                   (* scatteringMatrix.setup() *)
| GetSingleModeTimes
| ScatteringOutputJSON (file : string)
| TCondPrint (k : K)
| TCondPrintIter (k : K) (iter : Z)
| TCondOutputJSON (k : K) (file : string)
| WignerCalcPrint
| ViscosityCalcRTA
| ViscosityPrint
| ViscosityOutputJSON (file : string)
| SpecificHeatCalcPrint
| SpecificHeatOutputJSON (file : string)
| Barrier
| Diagonal                                (* scatteringMatrix.diagonal() *)
| OffDiagonalDot
| Dot
| DotMany
| A2Omega
| Diagonalize
| ViscosityCalcFromRelaxons.

Arguments ParsePhHarmonic {K}.
Arguments MakeFullPoints {K}.
Arguments BuildBandStructure {K}.
Arguments ParseIFC3 {K}.
Arguments ConstructScatteringMatrix {K}.
Arguments Setup {K}.
Arguments GetSingleModeTimes {K}.
Arguments ScatteringOutputJSON {K} file.
Arguments TCondPrint {K} k.
Arguments TCondPrintIter {K} k iter.
Arguments TCondOutputJSON {K} k file.
Arguments WignerCalcPrint {K}.
Arguments ViscosityCalcRTA {K}.
Arguments ViscosityPrint {K}.
Arguments ViscosityOutputJSON {K} file.
Arguments SpecificHeatCalcPrint {K}.
Arguments SpecificHeatOutputJSON {K} file.
Arguments Barrier {K}.
Arguments Diagonal {K}.
Arguments OffDiagonalDot {K}.
Arguments Dot {K}.
Arguments DotMany {K}.
Arguments A2Omega {K}.
Arguments Diagonalize {K}.
Arguments ViscosityCalcFromRelaxons {K}.


(** An event of a pass of one of the two iteration loops. *)
Definition is_pass_event {K} (e : event K) : bool :=
  match e with
  | OffDiagonalDot | DotMany | TCondPrintIter _ _ => true
  | _ => false
  end.


(** A computation: the events it produced and how it ended. *)
Definition M (K A : Type) : Type := list (event K) * result A.

#[global] Instance M_ret {K} : MRet (M K) := fun A a => ([], Ok a).

#[global] Instance M_bind {K} : MBind (M K) := fun A B f m =>
  match m with
  | (t1, Ok a) => let '(t2, r) := f a in (t1 ++ t2, r)
  | (t1, Fatal msg) => (t1, Fatal msg)
  end.

Definition ret {K A} (a : A) : M K A := mret a.

Definition emit {K} (e : event K) : M K unit := ([e], Ok tt).

(** A call that may raise: the event of the call, then how it ended. *)
Definition call {K} (e : event K) (r : result unit) : M K unit := ([e], r).

(** [Error e(msg);] *)
Definition Error {K A} (msg : string) : M K A := ([], Fatal msg).

Definition relaxons_msg : string := "Relaxons require matrix kept in memory".
Definition in_memory_msg : string :=
  "If scattering matrix is kept in memory, only one temperature/chemical potential is allowed in a run".
Definition convergence_msg : string :=
  "Reached max BTE iterations without convergence".

(** The three flags set by the loop over [solverBTE]. *)
Definition solver_flags (solverBTE : list string) : bool * bool * bool :=
  fold_left
    (fun '(doIterative, doVariational, doRelaxons) s =>
       (if String.eqb s "iterative" then true else doIterative,
        if String.eqb s "variational" then true else doVariational,
        if String.eqb s "relaxons" then true else doRelaxons))
    solverBTE (false, false, false).

(** The collaborators of the driver, none of whose sources is at hand:
    [V] is VectorBTE with its arithmetic, [K] the PhononThermalConductivity
    object, [Sc] a double, [Mx] an Eigen::MatrixXd of shape (numCalcs, 3);
    then the assembled scattering matrix and the drift vector.

    The constructor of [PhScatteringMatrix] and [setup()] are given the
    configuration and the number of calculations
    ([statisticsSweep.getNumCalcs()]).  The specification has the invariant
    of the scattering matrix (in memory, hence one calculation) "enforced at
    construction/usage time", and what the two of them do with a
    configuration is not in the sources: each of them either returns or
    raises an error of its own. *)
Class Collaborators (V K Sc Mx : Type) : Type := {
  constructScatteringMatrix : Context Sc -> Z -> result unit;
  setup : Context Sc -> Z -> result unit;
  vadd : V -> V -> V;
  vsub : V -> V -> V;
  vmul : V -> V -> V;
  vdiv : V -> V -> V;
  vneg : V -> V;
  vsqrt : V -> V;
  vscale : V -> Mx -> V;                  (* VectorBTE * Eigen::MatrixXd *)
  vdot : V -> V -> Mx;
  mxdiv : Mx -> Mx -> Mx;                 (* a.array() / b.array() *)
  population2Canonical : V -> V;
  drift : V;                              (* BulkTDrift *)
  getSingleModeTimes : V;
  diagonal : V;
  offDiagonalDot : V -> V;
  dot : V -> V;
  (* each calc* method takes the object to its next state *)
  phTCond0 : K;
  calcFromPopulation : K -> V -> K;
  calcFromCanonicalPopulation : K -> V -> K;
  calcVariational : K -> V -> V -> V -> K;
  calcFromRelaxons : K -> K;
  ksub : K -> K -> K;                     (* phTCond - phTCondOld *)
  getNormMaxCoeff : K -> Sc;              (* diff.getNorm().maxCoeff() *)
  ltb : Sc -> Sc -> bool                  (* < on doubles *)
}.

Section Driver.

Context {V K Sc Mx : Type} {W : Collaborators V K Sc Mx}.

(** Modelled from the spec: the batched [dot(vectors[])], "bit-identical to
    calling [dot] once per vector". *)
Definition dotMany (inVectors : list V) : list V := map dot inVectors.

Section Loops.

Variable context : Context Sc.

(** One pass of the body of the Omini-Sparavigna loop up to the exit test:
    the new [fNext] and the new state of [phTCond]. *)
Definition omini_step (fRTA sMatrixDiagonal fOld : V) (phTCond : K) : V * K :=
  let fNext := vdiv (offDiagonalDot fOld) sMatrixDiagonal in
  let fNext := vsub fRTA fNext in
  (fNext, calcFromCanonicalPopulation phTCond fNext).

(** [for (int iter = 0; iter < maxIter; iter++) {...}] of the iterative
    solver; [n] counts the passes still allowed by the loop condition. *)
Fixpoint omini_loop (n : nat) (iter : Z) (fRTA sMatrixDiagonal : V)
    (threshold : Sc) (fOld : V) (phTCondOld phTCond : K) : M K K :=
  match n with
  | O => ret phTCond
  | S n' =>
      emit OffDiagonalDot ;;
      let '(fNext, phTCond) := omini_step fRTA sMatrixDiagonal fOld phTCond in
      emit (TCondPrintIter phTCond iter) ;;
      let diff := ksub phTCond phTCondOld in
      if ltb (getNormMaxCoeff diff) threshold
      then ret phTCond                                        (* break *)
      else
        let phTCondOld := phTCond in
        let fOld := fNext in
        if iter =? getMaxIterationsBTE context - 1
        then Error convergence_msg
        else omini_loop n' (iter + 1) fRTA sMatrixDiagonal threshold
               fOld phTCondOld phTCond
  end.

(** The block [if (doIterative) {...}]. *)
Definition iterative_solver (popRTA : V) (phTCond : K) : M K K :=
  let phTCondOld := phTCond in
  emit Diagonal ;;
  let sMatrixDiagonal := diagonal in
  let fRTA := population2Canonical popRTA in
  let fOld := fRTA in
  let threshold := getConvergenceThresholdBTE context in
  phTCond ← omini_loop (Z.to_nat (getMaxIterationsBTE context)) 0
               fRTA sMatrixDiagonal threshold fOld phTCondOld phTCond;
  emit (TCondPrint phTCond) ;;
  emit (TCondOutputJSON phTCond "omini_phonon_thermal_cond.json") ;;
  ret phTCond.

(** The conjugate-gradient loop of the variational solver. *)
Fixpoint variational_loop (n : nat) (iter : Z)
    (sMatrixDiagonal sMatrixDiagonalSqrt : V) (threshold : Sc)
    (fOld gOld hOld tOld : V) (phTCondOld phTCond : K) : M K K :=
  match n with
  | O => ret phTCond
  | S n' =>
      let alpha := mxdiv (vdot gOld hOld) (vdot hOld tOld) in
      let fNew := vscale hOld alpha in
      let fNew := vsub fOld fNew in
      let gNew := vscale tOld alpha in
      let gNew := vsub gOld gNew in
      let beta := mxdiv (vdot gNew gNew) (vdot gOld gOld) in
      let hNew := vscale hOld beta in
      let hNew := vadd (vneg gNew) hNew in
      let inVectors := [fNew; hNew] in
      emit DotMany ;;
      let outVectors := dotMany inVectors in
      let tOld := nth 1 outVectors hNew in
      let tOld := vdiv tOld sMatrixDiagonal in
      let phTCond :=
        calcVariational phTCond (nth 0 outVectors fNew) fNew
          sMatrixDiagonalSqrt in
      emit (TCondPrintIter phTCond iter) ;;
      let diff := ksub phTCond phTCondOld in
      if ltb (getNormMaxCoeff diff) threshold
      then ret phTCond                                        (* break *)
      else
        let phTCondOld := phTCond in
        let fOld := fNew in
        let gOld := gNew in
        let hOld := hNew in
        if iter =? getMaxIterationsBTE context - 1
        then Error convergence_msg
        else variational_loop n' (iter + 1) sMatrixDiagonal
               sMatrixDiagonalSqrt threshold fOld gOld hOld tOld
               phTCondOld phTCond
  end.

(** The block [if (doVariational) {...}]. *)
Definition variational_solver (popRTA : V) (phTCond : K) : M K K :=
  let phTCondOld := phTCond in
  emit Diagonal ;;
  let sMatrixDiagonalSqrt := vsqrt diagonal in
  emit Diagonal ;;
  let sMatrixDiagonal := diagonal in
  let fNew := population2Canonical popRTA in
  let fNew := vmul fNew sMatrixDiagonalSqrt in
  let fOld := fNew in
  emit Dot ;;
  let gOld := dot fNew in
  let gOld := vdiv gOld sMatrixDiagonal in
  let gOld := vsub gOld fOld in
  let hOld := vneg gOld in
  emit Dot ;;
  let tOld := dot hOld in
  let tOld := vdiv tOld sMatrixDiagonal in
  let threshold := getConvergenceThresholdBTE context in
  phTCond ← variational_loop (Z.to_nat (getMaxIterationsBTE context)) 0
               sMatrixDiagonal sMatrixDiagonalSqrt threshold
               fOld gOld hOld tOld phTCondOld phTCond;
  emit (TCondPrint phTCond) ;;
  emit (TCondOutputJSON phTCond "variational_phonon_thermal_cond.json") ;;
  ret phTCond.

(** The block [if (doRelaxons) {...}]. *)
Definition relaxons_solver (phTCond : K) : M K K :=
  emit A2Omega ;;
  emit Diagonalize ;;
  let phTCond := calcFromRelaxons phTCond in
  emit (TCondPrint phTCond) ;;
  emit (TCondOutputJSON phTCond "relaxons_phonon_thermal_cond.json") ;;
  emit (ScatteringOutputJSON "relaxons_relaxation_times.json") ;;
  (if negb (getUseSymmetries context)
   then
     emit ViscosityCalcFromRelaxons ;;
     emit ViscosityPrint ;;
     emit (ViscosityOutputJSON "relaxons_phonon_viscosity.json")
   else ret tt) ;;
  ret phTCond.

(** The part of [run] from its start to the end of the RTA stage: it
    returns [popRTA] and the state of [phTCond].  [numCalcs] is
    [statisticsSweep.getNumCalcs()]. *)
Definition rta_stage (numCalcs : Z) : M K (V * K) :=
  emit ParsePhHarmonic ;;
  emit MakeFullPoints ;;
  emit BuildBandStructure ;;
  emit ParseIFC3 ;;
  call ConstructScatteringMatrix
    (constructScatteringMatrix context numCalcs) ;;
  call Setup (setup context numCalcs) ;;
  emit GetSingleModeTimes ;;
  let phononRelTimes := getSingleModeTimes in
  let popRTA := vmul drift phononRelTimes in
  emit (ScatteringOutputJSON "rta_ph_relaxation_times.json") ;;
  let phTCond := calcFromPopulation phTCond0 popRTA in
  emit (TCondPrint phTCond) ;;
  emit (TCondOutputJSON phTCond "rta_phonon_thermal_cond.json") ;;
  emit WignerCalcPrint ;;
  emit (TCondOutputJSON phTCond "wigner_phonon_thermal_cond.json") ;;
  emit ViscosityCalcRTA ;;
  emit ViscosityPrint ;;
  emit (ViscosityOutputJSON "rta_phonon_viscosity.json") ;;
  emit SpecificHeatCalcPrint ;;
  emit (SpecificHeatOutputJSON "specific_heat.json") ;;
  ret (popRTA, phTCond).

(** The constructor of the scattering matrix and [setup()] return without
    an error. *)
Definition assembles (numCalcs : Z) : Prop :=
  constructScatteringMatrix context numCalcs = Ok tt /\
  setup context numCalcs = Ok tt.

(** "here we do validation of the input, to check for consistency". *)
Definition validate (doRelaxons : bool) (numCalcs : Z) : M K unit :=
  (if doRelaxons && negb (getScatteringMatrixInMemory context)
   then Error relaxons_msg else ret tt) ;;
  (if getScatteringMatrixInMemory context && negb (numCalcs =? 1)
   then Error in_memory_msg else ret tt).

(** [PhononTransportApp::run]. *)
Definition run (numCalcs : Z) : M K unit :=
  '(popRTA, phTCond) ← rta_stage numCalcs;
  let '(doIterative, doVariational, doRelaxons) :=
    solver_flags (getSolverBTE context) in
  validate doRelaxons numCalcs ;;
  emit Barrier ;;
  phTCond ← (if doIterative then iterative_solver popRTA phTCond
              else ret phTCond);
  phTCond ← (if doVariational then variational_solver popRTA phTCond
              else ret phTCond);
  phTCond ← (if doRelaxons then relaxons_solver phTCond
              else ret phTCond);
  emit Barrier.

End Loops.

(** The iterates of the Omini-Sparavigna scheme as the specification
    writes them: [next = canonical(RTA) - offDiagonalDot(current)/diagonal],
    started at the canonical RTA population, each with the thermal
    conductivity derived from it. *)
Fixpoint omini_iterate (popRTA : V) (kRTA : K) (i : nat) : V * K :=
  match i with
  | O => (population2Canonical popRTA, kRTA)
  | S j =>
      let '(current, k) := omini_iterate popRTA kRTA j in
      let next :=
        vsub (population2Canonical popRTA)
             (vdiv (offDiagonalDot current) diagonal) in
      (next, calcFromCanonicalPopulation k next)
  end.

(** The max-coefficient change of the thermal conductivity between iterate
    [i] and iterate [i+1] is below the threshold. *)
Definition omini_converged_at (threshold : Sc) (popRTA : V) (kRTA : K)
    (i : nat) : bool :=
  ltb (getNormMaxCoeff
         (ksub (snd (omini_iterate popRTA kRTA (S i)))
               (snd (omini_iterate popRTA kRTA i))))
      threshold.

(** [popRTA] and the conductivity computed from it in the RTA stage. *)
Definition popRTA_of : V := vmul drift getSingleModeTimes.
Definition kRTA_of : K := calcFromPopulation phTCond0 popRTA_of.

(** The events of an RTA stage that ran to its end. *)
Definition rta_events : list (event K) :=
  [ ParsePhHarmonic; MakeFullPoints; BuildBandStructure; ParseIFC3;
    ConstructScatteringMatrix; Setup; GetSingleModeTimes;
    ScatteringOutputJSON "rta_ph_relaxation_times.json";
    TCondPrint kRTA_of;
    TCondOutputJSON kRTA_of "rta_phonon_thermal_cond.json";
    WignerCalcPrint;
    TCondOutputJSON kRTA_of "wigner_phonon_thermal_cond.json";
    ViscosityCalcRTA; ViscosityPrint;
    ViscosityOutputJSON "rta_phonon_viscosity.json";
    SpecificHeatCalcPrint;
    SpecificHeatOutputJSON "specific_heat.json" ].

(** The events of pass [l] of the iterative loop according to the
    iterates above: the off-diagonal product, and the print of the
    conductivity of iterate [l+1]. *)
Definition pass_events (popRTA : V) (kRTA : K) (l : nat) : list (event K) :=
  [OffDiagonalDot;
   TCondPrintIter (snd (omini_iterate popRTA kRTA (S l))) (Z.of_nat l)].

(** The events of passes [j .. j+m-1]. *)
Definition passes (popRTA : V) (kRTA : K) (j m : nat) : list (event K) :=
  flat_map (pass_events popRTA kRTA) (seq j m).

(** The variables the conjugate-gradient loop carries from one pass to the
    next: [fOld], [gOld], [hOld], [tOld] and the state of [phTCond], which
    is also the value of [phTCondOld] at the head of every pass. *)
Definition cg_state : Type := (V * V * V * V * K)%type.

(** The state at the head of the first pass, as the variational solver
    sets it up before the loop. *)
Definition variational_init (popRTA : V) (phTCond : K) : cg_state :=
  let sMatrixDiagonalSqrt := vsqrt diagonal in
  let sMatrixDiagonal := diagonal in
  let fNew := population2Canonical popRTA in
  let fNew := vmul fNew sMatrixDiagonalSqrt in
  let fOld := fNew in
  let gOld := dot fNew in
  let gOld := vdiv gOld sMatrixDiagonal in
  let gOld := vsub gOld fOld in
  let hOld := vneg gOld in
  let tOld := dot hOld in
  let tOld := vdiv tOld sMatrixDiagonal in
  (fOld, gOld, hOld, tOld, phTCond).

(** One pass of the body of the loop up to the exit test: the state that
    the else branch of the test hands to the next pass, with the new state
    of [phTCond]. *)
Definition variational_step (s : cg_state) : cg_state :=
  let '(fOld, gOld, hOld, tOld, phTCond) := s in
  let sMatrixDiagonalSqrt := vsqrt diagonal in
  let sMatrixDiagonal := diagonal in
  let alpha := mxdiv (vdot gOld hOld) (vdot hOld tOld) in
  let fNew := vscale hOld alpha in
  let fNew := vsub fOld fNew in
  let gNew := vscale tOld alpha in
  let gNew := vsub gOld gNew in
  let beta := mxdiv (vdot gNew gNew) (vdot gOld gOld) in
  let hNew := vscale hOld beta in
  let hNew := vadd (vneg gNew) hNew in
  let inVectors := [fNew; hNew] in
  let outVectors := dotMany inVectors in
  let tOld := nth 1 outVectors hNew in
  let tOld := vdiv tOld sMatrixDiagonal in
  let phTCond :=
    calcVariational phTCond (nth 0 outVectors fNew) fNew
      sMatrixDiagonalSqrt in
  (fNew, gNew, hNew, tOld, phTCond).

(** The state after [l] passes none of which met the test. *)
Fixpoint variational_iterate (popRTA : V) (phTCond : K) (l : nat)
    : cg_state :=
  match l with
  | O => variational_init popRTA phTCond
  | S j => variational_step (variational_iterate popRTA phTCond j)
  end.

(** The max-coefficient change of the thermal conductivity between the
    states after [l] and after [l+1] passes is below the threshold. *)
Definition variational_converged_at (threshold : Sc) (popRTA : V)
    (phTCond : K) (l : nat) : bool :=
  ltb (getNormMaxCoeff
         (ksub (snd (variational_iterate popRTA phTCond (S l)))
               (snd (variational_iterate popRTA phTCond l))))
      threshold.

(** The events of pass [l] of the variational loop, and of passes
    [j .. j+m-1]. *)
Definition variational_pass_events (popRTA : V) (phTCond : K) (l : nat)
    : list (event K) :=
  [DotMany;
   TCondPrintIter (snd (variational_iterate popRTA phTCond (S l)))
     (Z.of_nat l)].

Definition variational_passes (popRTA : V) (phTCond : K) (j m : nat)
    : list (event K) :=
  flat_map (variational_pass_events popRTA phTCond) (seq j m).

(** The variational loop entered at the head of a pass with the carried
    state [s], as the solver enters it. *)
Definition variational_loop_from (context : Context Sc) (n : nat) (iter : Z)
    (s : cg_state) : M K K :=
  let '(fOld, gOld, hOld, tOld, phTCond) := s in
  variational_loop context n iter diagonal (vsqrt diagonal)
    (getConvergenceThresholdBTE context) fOld gOld hOld tOld
    phTCond phTCond.

End Driver.

(** The events of a run up to the call of the constructor of the
    scattering matrix, and up to the call of [setup()]. *)
Definition events_to_constructor {K} : list (event K) :=
  [ParsePhHarmonic; MakeFullPoints; BuildBandStructure; ParseIFC3;
   ConstructScatteringMatrix].

Definition events_to_setup {K} : list (event K) :=
  events_to_constructor ++ [Setup].


End PhononTransportApp.

(** ** The scattering matrix applied to a State-Pair Vector *)

Module ScatteringMatrix.

(** Modelled from the spec: [ScatteringMatrix::dot], [diagonal] and
    [offDiagonalDot]; scattering_matrix.cpp is not among the sources, only
    the call sites in the driver are.  The matrix is the in-memory one (one
    calculation), stored by rows; a State-Pair Vector is the list of its
    (calculation, direction) components, each indexed by state.  Entries
    are integers, so that sums and products are exact. *)
Definition matrix : Type := list (list Z).
Definition component : Type := list Z.
Definition vectorBTE : Type := list component.

Definition square (n : nat) (A : matrix) : Prop :=
  length A = n /\ Forall (fun row => length row = n) A.

Definition shaped (n : nat) (v : vectorBTE) : Prop :=
  Forall (fun c => length c = n) v.

(** [A . c] for one component. *)
Definition dot1 (A : matrix) (c : component) : component :=
  map (fun row => Dense.row_dot row c) A.

(** [dot(vector)]: the full matrix-vector product. *)
Definition dot (A : matrix) (v : vectorBTE) : vectorBTE :=
  map (dot1 A) v.

(** [diagonal()]: the entries [A(i,i)], one per state. *)
Definition diagonal (A : matrix) : component :=
  imap (fun i row => nth i row 0) A.

(** Elementwise product with the diagonal and elementwise difference. *)
Definition vmul_diag (d : component) (v : vectorBTE) : vectorBTE :=
  map (zip_with Z.mul d) v.

Definition vsub (a b : vectorBTE) : vectorBTE :=
  zip_with (zip_with Z.sub) a b.

(** [offDiagonalDot(vector)], in the specification's words: "compute
    [A . vector] then subtract [diag(A) * vector] elementwise". *)
Definition offDiagonalDot (A : matrix) (v : vectorBTE) : vectorBTE :=
  vsub (dot A v) (vmul_diag (diagonal A) v).

(** The matrix [diag(A)], materialised: row [i] is zero but for [A(i,i)]
    in column [i]. *)
Definition diag_matrix (A : matrix) : matrix :=
  imap (fun i row => <[i := nth i row 0]> (replicate (length row) 0)) A.

(** The matrix [A - diag(A)], materialised. *)
Definition off_diagonal_matrix (A : matrix) : matrix :=
  zip_with (zip_with Z.sub) A (diag_matrix A).

(** The explicit zero-diagonal multiply [(A - diag(A)) . vector]. *)
Definition explicit_offDiagonalDot (A : matrix) (v : vectorBTE) : vectorBTE :=
  dot (off_diagonal_matrix A) v.

End ScatteringMatrix.

(** ** Population and canonical form of a State-Pair Vector *)

Module VectorBTE.

Local Open Scope Q_scope.

(** Modelled from the spec: [VectorBTE::population2Canonical] and its
    inverse; vector_bte.cpp is not among the sources.  The specification
    has them multiply or divide each entry, in place, by a state-dependent
    occupation factor, which the driver names: "from n, we get f, such that
    n = bose(bose+1)f".  A vector is the list of its (calculation,
    direction) components; [bose c s] is the occupation number of state [s]
    for component [c].  Rationals stand for the doubles. *)
Definition component : Type := list Q.
Definition vectorBTE : Type := list component.

Section Occupation.

Variable bose : nat -> nat -> Q.

Definition popFactor (c s : nat) : Q := bose c s * (bose c s + 1).

(** canonical to population: [n = bose(bose+1) f]. *)
Definition canonical2Population (v : vectorBTE) : vectorBTE :=
  imap (fun c comp => imap (fun s x => x * popFactor c s) comp) v.

(** population to canonical: [f = n / (bose(bose+1))].  Division by zero
    gives 0 on the rationals; on doubles it gives an infinity or a NaN. *)
Definition population2Canonical (v : vectorBTE) : vectorBTE :=
  imap (fun c comp => imap (fun s x => x / popFactor c s) comp) v.

(** The occupation factor is not zero at any entry of [v]. *)
Definition factors_nonzero (v : vectorBTE) : Prop :=
  forall c comp s x,
    v !! c = Some comp -> comp !! s = Some x -> ~ popFactor c s == 0.

End Occupation.

(** Equality of vectors up to the representation of the rationals. *)
Definition veq (a b : vectorBTE) : Prop := Forall2 (Forall2 Qeq) a b.

End VectorBTE.

(** ** A synthetic one-state system

    An instance of every collaborator of the driver, small enough to run:
    one state, one direction, one calculation, rational numbers for the
    doubles.  The scattering matrix has diagonal 1 and its off-diagonal
    part multiplies by [coupling]. *)

Module Synthetic.

Local Open Scope Q_scope.

Definition Qltb (a b : Q) : bool :=
  (Qnum a * QDen b <? Qnum b * QDen a)%Z.

(** Square root on rationals whose numerator and denominator are perfect
    squares, which is all this system takes roots of. *)
Definition Qsqrt (a : Q) : Q := Qmake (Z.sqrt (Qnum a)) (Pos.sqrt (Qden a)).

(** A scattering matrix that takes every configuration. *)
Definition accept (context : PhononTransportApp.Context Q) (numCalcs : Z)
    : result unit := Ok tt.



(** The collaborators of the one-state system, for a given constructor of
    the scattering matrix. *)
#[local] Instance system_with
    (constructor : PhononTransportApp.Context Q -> Z -> result unit)
    (coupling : Q) : PhononTransportApp.Collaborators Q Q Q Q := {|
  PhononTransportApp.constructScatteringMatrix := constructor;
  PhononTransportApp.setup := accept;
  PhononTransportApp.vadd := Qplus;
  PhononTransportApp.vsub := Qminus;
  PhononTransportApp.vmul := Qmult;
  PhononTransportApp.vdiv := Qdiv;
  PhononTransportApp.vneg := Qopp;
  PhononTransportApp.vsqrt := Qsqrt;
  PhononTransportApp.vscale := Qmult;
  PhononTransportApp.vdot := Qmult;
  PhononTransportApp.mxdiv := Qdiv;
  PhononTransportApp.population2Canonical := fun n => n;
  PhononTransportApp.drift := 1;
  PhononTransportApp.getSingleModeTimes := 1;
  PhononTransportApp.diagonal := 1;
  PhononTransportApp.offDiagonalDot := fun v => coupling * v;
  PhononTransportApp.dot := fun v => v + coupling * v;
  PhononTransportApp.phTCond0 := 0;
  PhononTransportApp.calcFromPopulation := fun _ v => v;
  PhononTransportApp.calcFromCanonicalPopulation := fun _ v => v;
  PhononTransportApp.calcVariational := fun _ out f d => f;
  PhononTransportApp.calcFromRelaxons := fun k => k;
  PhononTransportApp.ksub := Qminus;
  PhononTransportApp.getNormMaxCoeff := Qabs;
  PhononTransportApp.ltb := Qltb
|}.

(** The one-state system whose scattering matrix takes every
    configuration, and the one whose constructor checks the invariant. *)
#[local] Instance system (coupling : Q)
    : PhononTransportApp.Collaborators Q Q Q Q := system_with accept coupling.


Definition run (coupling : Q) (context : PhononTransportApp.Context Q)
    (numCalcs : Z) : PhononTransportApp.M Q unit :=
  PhononTransportApp.run (W := system coupling) context numCalcs.


Definition iterative_solver (coupling : Q)
    (context : PhononTransportApp.Context Q) (popRTA phTCond : Q)
    : PhononTransportApp.M Q Q :=
  PhononTransportApp.iterative_solver (W := system coupling)
    context popRTA phTCond.

(** Four configurations: threshold 1/5 throughout. *)
Definition ctx_relaxons_not_in_memory : PhononTransportApp.Context Q :=
  PhononTransportApp.mkContext ["relaxons"%string] false 5 (1 # 5) false.

Definition ctx_relaxons_in_memory : PhononTransportApp.Context Q :=
  PhononTransportApp.mkContext ["relaxons"%string] true 5 (1 # 5) false.

Definition ctx_iterative : PhononTransportApp.Context Q :=
  PhononTransportApp.mkContext ["iterative"%string] false 5 (1 # 5) false.

Definition ctx_zero_budget : PhononTransportApp.Context Q :=
  PhononTransportApp.mkContext ["iterative"%string; "variational"%string]
    false 0 (1 # 5) false.

End Synthetic.

(** ** The band structure on the full grid (bandstructure.cpp) *)

Module FullBandStructure.

Definition LONG_MAX : Z := 2 ^ 63 - 1.

(** Conversion to [long] (64-bit two's complement). *)
Definition to_long (z : Z) : Z := (z + 2 ^ 63) mod 2 ^ 64 - 2 ^ 63.

(** The buffers that Eigen matrices own, by address.  The entries are
    doubles that the class only stores and hands back; integers stand for
    them.  A raw pointer is an address and an offset into its buffer. *)
Definition heap : Type := list (list Z).

Record pointer : Type := mkPtr { addr : nat; offset : Z }.

(** A new buffer, at the first unused address. *)
Definition alloc (h : heap) (buf : list Z) : heap * nat :=
  (h ++ [buf], length h).

(** [p + n] *)
Definition ptr_add (p : pointer) (n : Z) : pointer :=
  mkPtr (addr p) (offset p + n).

(** The [n] elements that start at [p]; reading outside the buffer is
    undefined. *)
Definition load (h : heap) (p : pointer) (n : Z) : option (list Z) :=
  buf ← h !! addr p;
  if decide (0 <= offset p /\ 0 <= n /\
             offset p + n <= Z.of_nat (length buf))
  then Some (take (Z.to_nat n) (drop (Z.to_nat (offset p)) buf))
  else None.

(** The members that concern the energies.  [energies] is the matrix of
    shape (numBands, numPoints), stored by columns, given by the address of
    its buffer; [numPoints] is [points.getNumPoints()].  The matrices of
    velocities and eigenvectors, with their raw pointers and flags, are
    handled by the class in the same way and are left out. *)
Record t : Type := mk {
  numBands : Z;
  numAtoms : Z;
  numPoints : Z;
  energies : nat;
  rawEnergies : pointer;
  energiesCols : Z;
  velocitiesCols : Z;
  eigenvectorsCols : Z
}.

(** The constructor: [energies] is a zero matrix, [rawEnergies] is
    [energies.data()]. *)
Definition construct (h : heap) (numBands_ numPoints_ : Z) : heap * t :=
  let numBands := numBands_ in
  let numAtoms := Z.quot numBands_ 3 in
  let '(h', a) :=
    alloc h (replicate (Z.to_nat (numBands * numPoints_)) 0) in
  (h', mk numBands numAtoms numPoints_ a (mkPtr a 0)
          numBands
          (to_long (to_long (numBands * numBands) * 3))
          (to_long (to_long (numBands * numAtoms) * 3))).

(** The copy constructor: the matrix is copied into a buffer of its own,
    the raw pointer is copied as a pointer. *)
Definition copy (h : heap) (that : t) : option (heap * t) :=
  buf ← h !! energies that;
  let '(h', a) := alloc h buf in
  Some (h', mk (numBands that) (numAtoms that) (numPoints that) a
               (rawEnergies that) (energiesCols that)
               (velocitiesCols that) (eigenvectorsCols that)).

Definition getNumBands (b : t) : Z := numBands b.

Definition getNumPoints (b : t) : Z := numPoints b.

Definition getNumStates (b : t) : Z := to_long (numBands b * getNumPoints b).

(** [getIndex(const WavevectorIndex &ik, const BandIndex &ib)] *)
Definition getIndex (b : t) (ik ib : Z) : Z :=
  to_long (to_long (ik * numBands b) + ib).

(** [setEnergies(Point &point, Eigen::VectorXd &energies_)] with [ik] the
    index of the point: [energies.col(ik) = energies_].  A column outside
    the matrix or a vector of another length is undefined (an Eigen
    assertion). *)
Definition setEnergies (h : heap) (b : t) (ik : Z) (energies_ : list Z)
    : option heap :=
  buf ← h !! energies b;
  if decide (0 <= ik < numPoints b /\ 0 <= numBands b /\
             length energies_ = Z.to_nat (numBands b) /\
             Z.of_nat (length buf) = numBands b * numPoints b)
  then
    Some (<[energies b :=
              take (Z.to_nat (ik * numBands b)) buf ++ energies_ ++
              drop (Z.to_nat (ik * numBands b + numBands b)) buf]> h)
  else None.

(** What [getState] passes on for the energies: the point and the pointer
    [thisEn]. *)
Record State : Type := mkState { point : Z; thisEn : pointer }.

(** [getState(const long &pointIndex)] *)
Definition getState (b : t) (pointIndex : Z) : State :=
  let thisEn := ptr_add (rawEnergies b) (to_long (pointIndex * energiesCols b)) in
  mkState pointIndex thisEn.

(** The energies a state stands for: "the next numBands elements" at
    [thisEn]. *)
Definition state_energies (h : heap) (b : t) (s : State) : option (list Z) :=
  load h (thisEn s) (numBands b).

(** [getBandEnergies(long &bandIndex)]: [energies.row(bandIndex)]. *)
Definition getBandEnergies (h : heap) (b : t) (bandIndex : Z)
    : option (list Z) :=
  buf ← h !! energies b;
  if decide (0 <= bandIndex < numBands b)
  then mapM (fun ik : nat =>
               buf !! Z.to_nat (Z.of_nat ik * numBands b + bandIndex))
            (seq 0 (Z.to_nat (numPoints b)))
  else None.

(** The object reads and writes one and the same buffer, which has the
    size of the matrix: the state the constructor leaves. *)
Definition owns_storage (h : heap) (b : t) : Prop :=
  rawEnergies b = mkPtr (energies b) 0 /\
  energiesCols b = numBands b /\
  0 <= numBands b /\ 0 <= numPoints b /\
  numBands b * numPoints b <= LONG_MAX /\
  exists buf, h !! energies b = Some buf /\
    Z.of_nat (length buf) = numBands b * numPoints b.

End FullBandStructure.

(** ** The band offset of elph_qe_to_phoebe_app.cpp *)

Module ElPhQeToPhoebeApp.

Local Open Scope Q_scope.

Definition gamma_msg : string :=
  "Expecting first coarse grid k-point in Wannier90 to be gamma".
Definition offset_msg : string := "Bands offset not found".

(** The loop that reads the .eig file: [entries] are the triples
    (ib, ik, x) the stream yields; the values of the first point are kept,
    divided by [energyRyToEv], up to the first entry with [ik > 1]. *)
Fixpoint readEig (energyRyToEv : Q) (entries : list (Z * Z * Q)) : list Q :=
  match entries with
  | [] => []
  | (ib, ik, x) :: rest =>
      if (ik >? 1)%Z then []
      else (x / energyRyToEv) :: readEig energyRyToEv rest
  end.

(** The inner loop [for ib < numBandsWannier] for one [i]: every pass
    overwrites [difference(i)].  [acc] is the value held so far; a read
    outside either vector is undefined. *)
Fixpoint difference_row (energiesQEAtZero energiesWannierAtZero : list Q)
    (i : nat) (ibs : list nat) (acc : Q) : option Q :=
  match ibs with
  | [] => Some acc
  | ib :: rest =>
      x ← energiesQEAtZero !! ib;
      y ← energiesWannierAtZero !! (ib + i)%nat;
      difference_row energiesQEAtZero energiesWannierAtZero i rest
        ((x - y) * (x - y))
  end.

(** The outer loop: the vector [difference], set to zero first. *)
Fixpoint difference_rows (energiesQEAtZero energiesWannierAtZero : list Q)
    (numBandsWannier : nat) (idxs : list nat) : option (list Q) :=
  match idxs with
  | [] => Some []
  | i :: rest =>
      d ← difference_row energiesQEAtZero energiesWannierAtZero i
            (seq 0 numBandsWannier) 0;
      ds ← difference_rows energiesQEAtZero energiesWannierAtZero
             numBandsWannier rest;
      Some (d :: ds)
  end.

(** [difference.minCoeff()] of a vector with first entry [d]. *)
Definition minCoeff (d : Q) (ds : list Q) : Q :=
  fold_left (fun m x => if Qle_bool x m then x else m) ds d.

(** The search loop: the first [i] with
    [difference(i) == difference.minCoeff()], or -1. *)
Fixpoint first_min (m : Q) (ds : list Q) (i : Z) : Z :=
  match ds with
  | [] => (-1)%Z
  | d :: rest => if Qeq_bool d m then i else first_min m rest (i + 1)%Z
  end.

(** [computeOffset].  [energiesQEAtZero] is [energies.col(0)]; [k] is the
    k-point read from the .nnkp file and [entries] what the .eig file
    yields; [energyRyToEv] is the constant of constants.h.  [None] is
    undefined behaviour: a vector of negative size or a read outside a
    vector. *)
Definition computeOffset (energyRyToEv : Q) (energiesQEAtZero : list Q)
    (k : Q * Q * Q) (entries : list (Z * Z * Q)) : option (result Z) :=
  let '(kx, ky, kz) := k in
  if Qlt_le_dec (1 # 100000) (kx * kx + ky * ky + kz * kz)
  then Some (Fatal gamma_msg)
  else
    let energiesWannierAtZero := readEig energyRyToEv entries in
    let numBandsWannier := to_int (Z.of_nat (length energiesWannierAtZero)) in
    let numFull := to_int (Z.of_nat (length energiesQEAtZero)) in
    let possibleValues := to_int (to_int (numFull - numBandsWannier) + 1) in
    if (possibleValues <? 0)%Z then None
    else
      difference ←
        difference_rows energiesQEAtZero energiesWannierAtZero
          (Z.to_nat numBandsWannier) (seq 0 (Z.to_nat possibleValues));
      let offset :=
        match difference with
        | [] => (-1)%Z
        | d :: ds => first_min (minCoeff d ds) difference 0
        end in
      if (offset =? -1)%Z then Some (Fatal offset_msg)
      else Some (Ok offset).

End ElPhQeToPhoebeApp.

(** ** Counting the work of the driver *)

Module PhononTransportAppCount.

Import PhononTransportApp.

Definition is_offDiagonalDot {K} (e : event K) : bool :=
  match e with OffDiagonalDot => true | _ => false end.

Definition is_dotMany {K} (e : event K) : bool :=
  match e with DotMany => true | _ => false end.

Definition is_dot {K} (e : event K) : bool :=
  match e with Dot => true | _ => false end.

Definition is_tcond_output {K} (e : event K) : bool :=
  match e with TCondOutputJSON _ _ => true | _ => false end.

(** How many events of a kind a trace holds. *)
Fixpoint count {K} (f : event K -> bool) (tr : list (event K)) : nat :=
  match tr with
  | [] => 0
  | e :: rest => (if f e then 1 else 0) + count f rest
  end.

End PhononTransportAppCount.

(** * Properties *)

(** ** Fixed-width integers *)

Module CIntFacts.

Lemma to_size_t_small z : 0 <= z <= SIZE_MAX -> to_size_t z = z.
Proof.
  unfold to_size_t, SIZE_MAX. intros H. apply Z.mod_small. lia.
Qed.

Lemma to_int_small z : - 2 ^ 31 <= z <= INT_MAX -> to_int z = z.
Proof.
  unfold to_int, INT_MAX. intros H.
  rewrite Z.mod_small; lia.
Qed.

Lemma to_int_range z : - 2 ^ 31 <= to_int z <= INT_MAX.
Proof.
  unfold to_int, INT_MAX.
  pose proof (Z.mod_pos_bound (z + 2 ^ 31) (2 ^ 32) ltac:(lia)). lia.
Qed.

Lemma to_int_idem z : to_int (to_int z) = to_int z.
Proof. apply to_int_small. apply to_int_range. Qed.

Lemma mul_size_t_small a b :
  0 <= a -> 0 <= b -> a * b <= SIZE_MAX -> mul_size_t a b = a * b.
Proof.
  intros Ha Hb Hab. unfold mul_size_t. apply to_size_t_small. nia.
Qed.

End CIntFacts.

(** ** Work division and the process grid *)

Module MPIcontrollerFacts.

Import MPIcontroller CIntFacts.

Lemma length_resize n v : length (resize n v) = n.
Proof.
  unfold resize. rewrite length_app, length_take, length_replicate. lia.
Qed.

(** The loop writes slots [r .. r+n-1] and leaves the others alone. *)
Lemma divideWork_loop_lookup n : forall r numTasks sz hs ts hs' ts',
  0 <= r ->
  (Z.to_nat r + n <= length hs)%nat ->
  (Z.to_nat r + n <= length ts)%nat ->
  divideWork_loop n r numTasks sz hs ts = (hs', ts') ->
  length hs' = length hs /\ length ts' = length ts /\
  (forall j : nat, (Z.to_nat r <= j < Z.to_nat r + n)%nat ->
     hs' !! j = Some (to_int (headOf numTasks sz (Z.of_nat j))) /\
     ts' !! j = Some (to_int (tailOf numTasks sz (Z.of_nat j)))) /\
  (forall j : nat, ~ (Z.to_nat r <= j < Z.to_nat r + n)%nat ->
     hs' !! j = hs !! j /\ ts' !! j = ts !! j).
Proof.
  induction n as [|n IH]; intros r numTasks sz hs ts hs' ts' Hr Hh Ht Heq.
  - simpl in Heq. inversion Heq; subst. repeat split; auto; lia.
  - simpl in Heq. apply IH in Heq; try lia;
      rewrite ?length_insert; try lia.
    destruct Heq as (Lh & Lt & Hin & Hout).
    rewrite length_insert in Lh, Lt.
    replace (Z.to_nat (r + 1)) with (S (Z.to_nat r)) in Hin, Hout by lia.
    split; [exact Lh|]. split; [exact Lt|]. split.
    + intros j Hj.
      destruct (decide (j = Z.to_nat r)) as [-> | Hne].
      * destruct (Hout (Z.to_nat r)) as [-> ->]; [lia|].
        rewrite !list_lookup_insert_eq by lia.
        rewrite Z2Nat.id by lia. auto.
      * apply Hin. lia.
    + intros j Hj.
      destruct (Hout j) as [-> ->]; [lia|].
      rewrite !list_lookup_insert_ne by lia. auto.
Qed.

(** Both revisions leave vectors of length [size] whose slot [r] holds the
    two right-hand sides for [r], narrowed to [int]. *)
Lemma divideWork_from_lookup (c : t) numTasks hs ts hs' ts' :
  0 <= size c ->
  length hs = Z.to_nat (size c) ->
  length ts = Z.to_nat (size c) ->
  divideWork_loop (Z.to_nat (size c)) 0 numTasks (size c) hs ts = (hs', ts') ->
  hs' = map (fun j => to_int (headOf numTasks (size c) (Z.of_nat j)))
            (seq 0 (Z.to_nat (size c))) /\
  ts' = map (fun j => to_int (tailOf numTasks (size c) (Z.of_nat j)))
            (seq 0 (Z.to_nat (size c))).
Proof.
  intros Hs Lh Lt Heq.
  apply divideWork_loop_lookup in Heq; try (simpl; lia).
  destruct Heq as (Lh' & Lt' & Hin & _).
  change (Z.to_nat 0) with 0%nat in Hin. simpl in Hin.
  split; apply list_eq; intros j; rewrite list_lookup_fmap;
    destruct (decide (j < Z.to_nat (size c))%nat) as [Hlt | Hge].
  - destruct (Hin j) as [-> _]; [lia|].
    rewrite lookup_seq_lt by lia. reflexivity.
  - rewrite lookup_seq_ge by lia. apply lookup_ge_None. lia.
  - destruct (Hin j) as [_ ->]; [lia|].
    rewrite lookup_seq_lt by lia. reflexivity.
  - rewrite lookup_seq_ge by lia. apply lookup_ge_None. lia.
Qed.

Lemma divideWork_vectors (c : t) numTasks :
  0 <= size c ->
  workDivisionHeads (divideWork c numTasks) =
    map (fun j => to_int (headOf numTasks (size c) (Z.of_nat j)))
        (seq 0 (Z.to_nat (size c))) /\
  workDivisionTails (divideWork c numTasks) =
    map (fun j => to_int (tailOf numTasks (size c) (Z.of_nat j)))
        (seq 0 (Z.to_nat (size c))).
Proof.
  intros Hs. unfold divideWork.
  destruct (divideWork_loop _ _ _ _ _ _) as [hs' ts'] eqn:Heq.
  simpl. eapply divideWork_from_lookup; eauto using length_resize.
Qed.

(** The earlier revision, which does not clear the vectors first, ends in
    the same state. *)
Lemma divideWork_noclear_eq (c : t) numTasks :
  0 <= size c -> divideWork_noclear c numTasks = divideWork c numTasks.
Proof.
  intros Hs.
  destruct (divideWork_vectors c numTasks Hs) as [Hh Ht].
  unfold divideWork_noclear.
  destruct (divideWork_loop _ _ _ _ (resize _ (workDivisionHeads c)) _)
    as [hs' ts'] eqn:Heq.
  apply divideWork_from_lookup in Heq; auto using length_resize.
  destruct Heq as [-> ->].
  revert Hh Ht. unfold divideWork.
  destruct (divideWork_loop _ _ _ _ _ _) as [hs2 ts2].
  simpl. intros -> ->. reflexivity.
Qed.

(** Without wrap-around the right-hand sides are the exact quotients. *)
Lemma headOf_exact numTasks sz r :
  0 <= numTasks -> 0 <= r < sz -> numTasks * sz <= SIZE_MAX ->
  headOf numTasks sz r = numTasks * r / sz.
Proof.
  intros HN Hr Hb. unfold headOf, div_size_t.
  assert (sz <= SIZE_MAX \/ numTasks = 0) as [Hsz | ->] by nia.
  - rewrite (to_size_t_small r), (to_size_t_small sz) by lia.
    rewrite mul_size_t_small by nia. reflexivity.
  - unfold mul_size_t. rewrite !Z.mul_0_l. reflexivity.
Qed.

Lemma tailOf_exact numTasks sz r :
  0 <= numTasks -> 0 <= r < sz -> sz <= INT_MAX ->
  numTasks * sz <= SIZE_MAX ->
  tailOf numTasks sz r = numTasks * (r + 1) / sz.
Proof.
  intros HN Hr Hi Hb. unfold tailOf, div_size_t.
  assert (INT_MAX <= SIZE_MAX) by (unfold INT_MAX, SIZE_MAX; lia).
  rewrite to_int_small by (unfold INT_MAX in *; lia).
  rewrite (to_size_t_small (r + 1)), (to_size_t_small sz) by lia.
  rewrite mul_size_t_small by nia. reflexivity.
Qed.

Section Quotients.

Variables N P : Z.
Hypothesis HN : 0 <= N.
Hypothesis HP : 1 <= P.

Local Abbreviation cut := (MPIcontroller.cut N P).

Lemma cut_0 : cut 0 = 0.
Proof. unfold MPIcontroller.cut. rewrite Z.mul_0_r. apply Z.div_0_l. lia. Qed.

Lemma cut_P : cut P = N.
Proof. unfold MPIcontroller.cut. apply Z.div_mul. lia. Qed.

Lemma cut_mono r s : r <= s -> cut r <= cut s.
Proof. intros H. unfold MPIcontroller.cut. apply Z.div_le_mono; nia. Qed.

(** Below the [k]-th cut there is a range that holds [i]. *)
Lemma cut_search (k : nat) : forall i,
  0 <= i < cut (Z.of_nat k) ->
  exists r, 0 <= r < Z.of_nat k /\ cut r <= i < cut (r + 1).
Proof.
  induction k as [|k IH]; intros i Hi.
  - change (Z.of_nat 0) with 0 in Hi. rewrite cut_0 in Hi. lia.
  - destruct (Z_lt_le_dec i (cut (Z.of_nat k))) as [Hlt | Hge].
    + destruct (IH i) as (r & Hr & Hin); [lia|].
      exists r. split; [lia | exact Hin].
    + exists (Z.of_nat k). split; [lia|].
      replace (Z.of_nat k + 1) with (Z.of_nat (S k)) by lia. lia.
Qed.

Lemma cut_cover i :
  0 <= i < N -> exists r, 0 <= r < P /\ cut r <= i < cut (r + 1).
Proof.
  intros Hi.
  destruct (cut_search (Z.to_nat P) i) as (r & Hr & Hin).
  - rewrite Z2Nat.id by lia. rewrite cut_P. lia.
  - exists r. split; [lia | exact Hin].
Qed.

Lemma cut_unique i r r' :
  cut r <= i < cut (r + 1) -> cut r' <= i < cut (r' + 1) -> r' = r.
Proof.
  intros H1 H2.
  destruct (Z.lt_trichotomy r' r) as [Hlt | [Heq | Hgt]]; [| exact Heq |].
  - pose proof (cut_mono (r' + 1) r). lia.
  - pose proof (cut_mono (r + 1) r'). lia.
Qed.

Lemma cut_within i r :
  0 <= r < P -> cut r <= i < cut (r + 1) -> 0 <= i < N.
Proof.
  intros Hr Hi.
  pose proof (cut_mono 0 r). pose proof (cut_mono (r + 1) P).
  rewrite cut_0 in *. rewrite cut_P in *. lia.
Qed.

End Quotients.

(** The slots of rank [r] after [divideWork], when the product does not
    wrap in [size_t]: the cut points, narrowed to [int]. *)
Lemma divideWork_slots (c : t) numTasks r :
  0 <= numTasks -> 1 <= size c <= INT_MAX ->
  numTasks * size c <= SIZE_MAX ->
  0 <= r < size c ->
  workDivisionHeads (divideWork c numTasks) !! Z.to_nat r
    = Some (to_int (cut numTasks (size c) r)) /\
  workDivisionTails (divideWork c numTasks) !! Z.to_nat r
    = Some (to_int (cut numTasks (size c) (r + 1))).
Proof.
  intros HN HP Hb Hr.
  destruct (divideWork_vectors c numTasks) as [-> ->]; [lia|].
  rewrite !list_lookup_fmap, !lookup_seq_lt by lia. simpl.
  rewrite Z2Nat.id by lia.
  rewrite headOf_exact, tailOf_exact by lia. auto.
Qed.

Lemma size_divideWork (c : t) numTasks :
  size (divideWork c numTasks) = size c.
Proof.
  unfold divideWork. destruct (divideWork_loop _ _ _ _ _ _). reflexivity.
Qed.

Lemma rank_divideWork (c : t) numTasks :
  rank (divideWork c numTasks) = rank c.
Proof.
  unfold divideWork. destruct (divideWork_loop _ _ _ _ _ _). reflexivity.
Qed.

Lemma on_rank_self (c : t) : on_rank c (rank c) = c.
Proof. destruct c. reflexivity. Qed.

(** What [workHead()] and [workTail()] return on the process of rank [r],
    when the product does not wrap in [size_t]. *)
Lemma work_range_narrowed (c : t) numTasks r :
  0 <= numTasks -> 1 <= size c <= INT_MAX ->
  numTasks * size c <= SIZE_MAX ->
  0 <= r < size c ->
  workHead (on_rank (divideWork c numTasks) r)
    = Some (to_int (cut numTasks (size c) r)) /\
  workTail (on_rank (divideWork c numTasks) r)
    = Some (to_int (cut numTasks (size c) (r + 1))).
Proof.
  intros HN HP Hb Hr.
  destruct (divideWork_slots c numTasks r HN HP Hb Hr) as [Hh Ht].
  unfold workHead, workTail, on_rank. cbn [rank workDivisionHeads
    workDivisionTails].
  rewrite Hh, Ht. cbn [fmap option_fmap option_map].
  rewrite !to_int_idem. auto.
Qed.

(** Every cut point of a number of tasks that fits an [int] fits an
    [int]. *)
Lemma cut_fits N P r :
  0 <= N <= INT_MAX -> 1 <= P -> 0 <= r <= P ->
  0 <= cut N P r <= INT_MAX.
Proof.
  intros HN HP Hr.
  assert (HN0 : 0 <= N) by lia.
  pose proof (cut_mono N P HN0 HP 0 r ltac:(lia)) as H0.
  pose proof (cut_mono N P HN0 HP r P ltac:(lia)) as H1.
  rewrite (cut_0 N P HP) in H0. rewrite (cut_P N P HP) in H1. lia.
Qed.

(** The range handed out on rank [r] when [numTasks] fits an [int]. *)
Lemma work_range (c : t) numTasks r :
  0 <= numTasks <= INT_MAX -> 1 <= size c <= INT_MAX ->
  0 <= r < size c ->
  workHead (on_rank (divideWork c numTasks) r)
    = Some (cut numTasks (size c) r) /\
  workTail (on_rank (divideWork c numTasks) r)
    = Some (cut numTasks (size c) (r + 1)).
Proof.
  intros HN HP Hr.
  assert (Hb : numTasks * size c <= SIZE_MAX)
    by (unfold INT_MAX, SIZE_MAX in *; nia).
  destruct (work_range_narrowed c numTasks r) as [Hh Ht]; try lia.
  pose proof (cut_fits numTasks (size c) r HN ltac:(lia) ltac:(lia)) as F0.
  pose proof (cut_fits numTasks (size c) (r + 1) HN ltac:(lia) ltac:(lia))
    as F1.
  rewrite Hh, Ht.
  rewrite !to_int_small by (unfold INT_MAX in *; lia). auto.
Qed.

Lemma owns_iff (c : t) numTasks r i :
  0 <= numTasks <= INT_MAX -> 1 <= size c <= INT_MAX ->
  0 <= r < size c ->
  owns (divideWork c numTasks) r i <->
  cut numTasks (size c) r <= i < cut numTasks (size c) (r + 1).
Proof.
  intros HN HP Hr.
  destruct (work_range c numTasks r HN HP Hr) as [Hh Ht].
  unfold owns. rewrite Hh, Ht. split.
  - intros (h & tl & [= <-] & [= <-] & Hi). exact Hi.
  - intros Hi. eauto.
Qed.

(** C6 (amended): for a number of tasks that fits an [int] (and a positive
    [int] number [P] of processes), [workHead()] and [workTail()] give
    process [r] the half-open range from [numTasks*r/P] to
    [numTasks*(r+1)/P]; every index below [numTasks] lies in the range of
    exactly one process, and no range holds anything else. *)
Theorem divideWork_partition (c : t) (numTasks : Z) :
  0 <= numTasks <= INT_MAX -> 1 <= size c <= INT_MAX ->
  is_partition (divideWork c numTasks) numTasks.
Proof.
  intros HN HP. unfold is_partition. rewrite size_divideWork.
  assert (HN0 : 0 <= numTasks) by lia.
  split; [|split].
  - intros r Hr. apply work_range; assumption.
  - intros i Hi.
    destruct (cut_cover numTasks (size c) (proj1 HP) i Hi)
      as (r & Hr & Hin).
    exists r. split; [exact Hr|]. split.
    + apply owns_iff; assumption.
    + intros r' Hr' Ho. apply owns_iff in Ho; try assumption.
      exact (cut_unique numTasks (size c) HN0 (proj1 HP) i r r' Hin Ho).
  - intros r i Hr Ho. apply owns_iff in Ho; try assumption.
    exact (cut_within numTasks (size c) HN0 (proj1 HP) i r Hr Ho).
Qed.

Lemma divideWork_partition_witness :
  let c := mk 3 1 [] [] 1 1 0 0 in
  (0 <= 10 <= INT_MAX /\ 1 <= size c <= INT_MAX) /\
  is_partition (divideWork c 10) 10.
Proof.
  assert (H1 : 0 <= 10 <= INT_MAX) by (unfold INT_MAX; lia).
  assert (H2 : 1 <= 3 <= INT_MAX) by (unfold INT_MAX; lia).
  split; [auto|].
  exact (divideWork_partition (mk 3 1 [] [] 1 1 0 0) 10 H1 H2).
Defined.

Example divideWork_ten_on_three :
  let c := divideWork (mk 3 1 [] [] 1 1 0 0) 10 in
  workDivisionHeads c = [0; 3; 6] /\ workDivisionTails c = [3; 6; 10].
Proof. split; reflexivity. Qed.

(** C6, as stated, fails once [numTasks] exceeds the largest [int]: with
    3 000 000 000 tasks on one process [workHead()] returns 0 and
    [workTail()] returns -1294967296, so index 0 is in no range. *)
Lemma divideWork_overflow_counterexample :
  let c := divideWork (mk 1 0 [] [] 1 1 0 0) 3000000000 in
  workHead c = Some 0 /\ workTail c = Some (-1294967296) /\
  (0 <= 0 < 3000000000 /\ ~ exists r, 0 <= r < 1 /\ owns c r 0) /\
  ~ is_partition c 3000000000.
Proof.
  assert (Hnone : ~ exists r, 0 <= r < 1 /\
            owns (divideWork (mk 1 0 [] [] 1 1 0 0) 3000000000) r 0).
  { intros (r & Hr & h & tl & Hh & Ht & Hi).
    assert (r = 0) as -> by lia.
    vm_compute in Ht. inversion Ht; subst. lia. }
  split; [reflexivity|]. split; [reflexivity|].
  split; [split; [lia | exact Hnone]|].
  intros (_ & Hcover & _).
  destruct (Hcover 0) as (r & Hr & Ho & _); [lia|].
  apply Hnone. exists r. split; [exact Hr | exact Ho].
Qed.

(** The product [numTasks * r] is computed in [size_t] and wraps as well,
    but only for numbers of tasks far beyond the largest [int]: with 2^63
    tasks on two processes all four values come out as 0. *)
Example divideWork_size_t_wrap :
  let c := divideWork (mk 2 0 [] [] 1 1 0 0) (2 ^ 63) in
  workDivisionHeads c = [0; 0] /\ workDivisionTails c = [0; 0].
Proof. split; reflexivity. Qed.

(** The bound is the weakest one: no [workTail()] exceeds the largest
    [int], so a larger number of tasks cannot be covered. *)
Lemma divideWork_partition_only_if (c : t) (numTasks : Z) :
  0 <= numTasks ->
  is_partition (divideWork c numTasks) numTasks ->
  numTasks <= INT_MAX.
Proof.
  intros HN (_ & Hcover & _).
  destruct (Z_le_gt_dec numTasks INT_MAX) as [Hle | Hgt]; [exact Hle|].
  exfalso.
  destruct (Hcover INT_MAX) as (r & _ & (h & tl & _ & Ht & Hi) & _).
  { unfold INT_MAX in *. lia. }
  unfold workTail in Ht.
  destruct (workDivisionTails _ !! _) as [x|]; [|discriminate Ht].
  injection Ht as <-.
  pose proof (to_int_range x). lia.
Qed.

(** Read through [workHead] and [workTail] on the process itself, the
    range is the one of the specification as long as [numTasks] fits an
    [int]. *)
Lemma workHead_workTail (c : t) numTasks :
  0 <= numTasks <= INT_MAX -> 1 <= size c <= INT_MAX ->
  0 <= rank c < size c ->
  workHead (divideWork c numTasks) = Some (numTasks * rank c / size c) /\
  workTail (divideWork c numTasks) = Some (numTasks * (rank c + 1) / size c).
Proof.
  intros HN HP Hr.
  destruct (work_range c numTasks (rank c) HN HP Hr) as [Hh Ht].
  rewrite <- (rank_divideWork c numTasks), on_rank_self in Hh, Ht.
  rewrite (rank_divideWork c numTasks) in Hh, Ht.
  exact (conj Hh Ht).
Qed.

(** *** The process grid *)

Lemma sqrt_square_iff n :
  0 <= n -> (Z.sqrt n * Z.sqrt n = n <-> is_square n).
Proof.
  intros Hn. split.
  - intros H. exists (Z.sqrt n). split; [apply Z.sqrt_nonneg | lia].
  - intros (k & Hk & ->). rewrite Z.sqrt_square by lia. reflexivity.
Qed.

Lemma int_sqrt_bounds n :
  0 <= n <= INT_MAX ->
  0 <= int_sqrt n /\
  int_sqrt n * int_sqrt n <= n < (int_sqrt n + 1) * (int_sqrt n + 1).
Proof.
  intros Hn. unfold int_sqrt.
  pose proof (Z.sqrt_spec n ltac:(lia)) as Hs. simpl in Hs.
  pose proof (Z.sqrt_nonneg n).
  unfold Z.succ in Hs. lia.
Qed.

(** C7: the grid is P x P with P the integer square root of the number of
    processes; the constructor succeeds exactly on the perfect squares, and
    every other process count is the fatal error. *)
Theorem construct_square_or_fatal (world_size world_rank my_row my_col : Z) :
  1 <= world_size <= INT_MAX ->
  (is_square world_size ->
     exists c P,
       construct world_size world_rank my_row my_col = Ok c /\
       size c = world_size /\
       numBlasRows_ c = P /\ numBlasCols_ c = P /\
       0 <= P /\ P * P <= world_size < (P + 1) * (P + 1) /\
       numBlasRows_ c * numBlasCols_ c = world_size) /\
  (~ is_square world_size ->
     construct world_size world_rank my_row my_col = Fatal square_msg).
Proof.
  intros Hn.
  destruct (int_sqrt_bounds world_size) as (H0 & Hlo & Hhi); [lia|].
  assert (Hfit : to_int (int_sqrt world_size * int_sqrt world_size)
                 = int_sqrt world_size * int_sqrt world_size).
  { apply to_int_small. unfold INT_MAX in *. nia. }
  unfold construct. rewrite Hfit. split.
  - intros Hsq. apply sqrt_square_iff in Hsq; [|lia].
    fold (int_sqrt world_size) in Hsq.
    destruct (Z.gtb_spec world_size
                (int_sqrt world_size * int_sqrt world_size)) as [Hgt | Hle];
      [lia|].
    eexists. exists (int_sqrt world_size).
    split; [reflexivity|]. simpl. repeat split; auto; lia.
  - intros Hns.
    destruct (Z.gtb_spec world_size
                (int_sqrt world_size * int_sqrt world_size)) as [Hgt | Hle];
      [reflexivity|].
    exfalso. apply Hns. apply sqrt_square_iff; [lia|].
    unfold int_sqrt in *. lia.
Qed.

Lemma eight_not_square : ~ is_square 8.
Proof.
  intros (k & Hk & H).
  assert (k < 3) by nia.
  assert (k = 0 \/ k = 1 \/ k = 2) as [-> | [-> | ->]] by lia; lia.
Qed.

Lemma construct_square_or_fatal_witness :
  (1 <= 9 <= INT_MAX /\ is_square 9 /\
   exists c P,
     construct 9 4 1 1 = Ok c /\ size c = 9 /\
     numBlasRows_ c = P /\ numBlasCols_ c = P /\
     0 <= P /\ P * P <= 9 < (P + 1) * (P + 1) /\
     numBlasRows_ c * numBlasCols_ c = 9) /\
  (1 <= 8 <= INT_MAX /\ ~ is_square 8 /\
   construct 8 4 1 1 = Fatal square_msg).
Proof.
  assert (H9 : 1 <= 9 <= INT_MAX) by (unfold INT_MAX; lia).
  assert (H8 : 1 <= 8 <= INT_MAX) by (unfold INT_MAX; lia).
  assert (S9 : is_square 9) by (exists 3; split; [lia | reflexivity]).
  split.
  - split; [exact H9|]. split; [exact S9|].
    exact (proj1 (construct_square_or_fatal 9 4 1 1 H9) S9).
  - split; [exact H8|]. split; [exact eight_not_square|].
    exact (proj2 (construct_square_or_fatal 8 4 1 1 H8) eight_not_square).
Defined.

(** Without MPI there is one process and the grid is 1 x 1. *)
Lemma construct_serial_grid :
  exists c, construct_serial = Ok c /\ size c = 1 /\
    numBlasRows_ c = int_sqrt (size c) /\ numBlasCols_ c = int_sqrt (size c).
Proof. eexists. split; [reflexivity|]. simpl. auto. Qed.

Example construct_five_processes :
  construct 5 0 0 0 = Fatal square_msg.
Proof. reflexivity. Qed.

End MPIcontrollerFacts.

(** ** The matrix wrapper *)

Module SMatrixFacts.

Import SMatrix.

Section Wrapper.

Context {DM DP CM CP E : Type}.
Variable dmat_prod : DM -> DM -> ascii -> ascii -> DM.
Variable dpmat_prod1 : DP -> DP -> DP.
Variable cmat_prod : CM -> CM -> ascii -> ascii -> CM.
Variable cpmat_prod : CP -> CP -> ascii -> ascii -> CP.
Variable dmat_diagonalize : DM -> DM * (list E * Matrix DM DP).
Variable dpmat_diagonalize : DP -> DP * (list E * Matrix DM DP).
Variable cmat_diagonalize : CM -> CM * (list E * Matrix CM CP).
Variable cpmat_diagonalize : CP -> CP * (list E * Matrix CM CP).

(** In distributed mode the double specialisation gives the same result
    whatever the flags: they are not passed on. *)
Lemma prod_double_distributed_flags_ignored this that t1 t2 t1' t2' :
  isDistributed this = true ->
  prod_double dmat_prod dpmat_prod1 this that t1 t2 =
  prod_double dmat_prod dpmat_prod1 this that t1' t2'.
Proof. intros Hd. unfold prod_double. rewrite Hd. reflexivity. Qed.

(** The complex specialisation passes the flags to whichever kernel it
    calls: if the kernels agree on the global content [G] they compute, so
    do the two modes of the wrapper. *)
Lemma prod_complex_modes_agree {G : Type}
    (content_s : CM -> G) (content_p : CP -> G) :
  (forall a b a' b' t1 t2,
     content_p a = content_s a' -> content_p b = content_s b' ->
     content_p (cpmat_prod a b t1 t2) = content_s (cmat_prod a' b' t1 t2)) ->
  forall this that this' that' t1 t2,
    isDistributed this = true -> isDistributed this' = false ->
    content_p (pmat this) = content_s (mat this') ->
    content_p (pmat that) = content_s (mat that') ->
    content_p (pmat (prod_complex cmat_prod cpmat_prod this that t1 t2)) =
    content_s (mat (prod_complex cmat_prod cpmat_prod this' that' t1 t2)).
Proof.
  intros Hk this that this' that' t1 t2 Hd Hs Ha Hb.
  unfold prod_complex. rewrite Hd, Hs. simpl. apply Hk; assumption.
Qed.

(** What [diagonalize] does to the receiver, whatever the kernels do: the
    flag and the store not in use stay, the store in use is left as its
    kernel leaves it. *)
Lemma diagonalize_double_receiver this :
  fst (diagonalize_double dmat_diagonalize dpmat_diagonalize this) =
  if isDistributed this
  then set_pmat this (fst (dpmat_diagonalize (pmat this)))
  else set_mat this (fst (dmat_diagonalize (mat this))).
Proof.
  unfold diagonalize_double.
  destruct (isDistributed this).
  - destruct (dpmat_diagonalize (pmat this)) as [p' tup]. reflexivity.
  - destruct (dmat_diagonalize (mat this)) as [m' tup]. reflexivity.
Qed.

Lemma diagonalize_complex_receiver this :
  fst (diagonalize_complex cmat_diagonalize cpmat_diagonalize this) =
  if isDistributed this
  then set_pmat this (fst (cpmat_diagonalize (pmat this)))
  else set_mat this (fst (cmat_diagonalize (mat this))).
Proof.
  unfold diagonalize_complex.
  destruct (isDistributed this).
  - destruct (cpmat_diagonalize (pmat this)) as [p' tup]. reflexivity.
  - destruct (cmat_diagonalize (mat this)) as [m' tup]. reflexivity.
Qed.

(** The returned eigenvector matrix is the copy of the receiver taken
    before the kernel ran, with the store in use replaced. *)
Lemma diagonalize_double_eigvecs this :
  snd (snd (diagonalize_double dmat_diagonalize dpmat_diagonalize this)) =
  if isDistributed this
  then set_pmat this (pmat (snd (snd (dpmat_diagonalize (pmat this)))))
  else set_mat this (mat (snd (snd (dmat_diagonalize (mat this))))).
Proof.
  unfold diagonalize_double.
  destruct (isDistributed this).
  - destruct (dpmat_diagonalize (pmat this)) as [p' tup]. reflexivity.
  - destruct (dmat_diagonalize (mat this)) as [m' tup]. reflexivity.
Qed.

Lemma diagonalize_complex_eigvecs this :
  snd (snd (diagonalize_complex cmat_diagonalize cpmat_diagonalize this)) =
  if isDistributed this
  then set_pmat this (pmat (snd (snd (cpmat_diagonalize (pmat this)))))
  else set_mat this (mat (snd (snd (cmat_diagonalize (mat this))))).
Proof.
  unfold diagonalize_complex.
  destruct (isDistributed this).
  - destruct (cpmat_diagonalize (pmat this)) as [p' tup]. reflexivity.
  - destruct (cmat_diagonalize (mat this)) as [m' tup]. reflexivity.
Qed.

Lemma set_pmat_same {M P} (c : Matrix M P) : set_pmat c (pmat c) = c.
Proof. destruct c. reflexivity. Qed.

Lemma set_mat_same {M P} (c : Matrix M P) : set_mat c (mat c) = c.
Proof. destruct c. reflexivity. Qed.

Lemma set_pmat_eq {M P} (c : Matrix M P) (p : P) :
  set_pmat c p = c <-> p = pmat c.
Proof.
  destruct c as [d m q]. unfold set_pmat. simpl. split.
  - intros H. injection H as ->. reflexivity.
  - intros ->. reflexivity.
Qed.

Lemma set_mat_eq {M P} (c : Matrix M P) (m : M) :
  set_mat c m = c <-> m = mat c.
Proof.
  destruct c as [d m' q]. unfold set_mat. simpl. split.
  - intros H. injection H as ->. reflexivity.
  - intros ->. reflexivity.
Qed.

(** C10 (amended): [diagonalize] itself assigns nothing to the receiver.
    After the call the receiver has its flag and the store not in use as
    before, and the store in use as the kernel called on it has left it;
    so the receiver is unchanged exactly when that kernel leaves its store
    unchanged.  The eigenvectors come back in the copy of the receiver
    taken before the kernel ran, of which only the store in use is
    replaced.  For both specialisations and both modes, whatever the
    kernels are. *)
Theorem diagonalize_receiver_frame :
  (forall this : Matrix DM DP,
     let after :=
       fst (diagonalize_double dmat_diagonalize dpmat_diagonalize this) in
     let eigvecs :=
       snd (snd (diagonalize_double dmat_diagonalize dpmat_diagonalize this)) in
     isDistributed after = isDistributed this /\
     isDistributed eigvecs = isDistributed this /\
     (if isDistributed this
      then mat after = mat this /\ mat eigvecs = mat this /\
           pmat after = fst (dpmat_diagonalize (pmat this)) /\
           (after = this <-> fst (dpmat_diagonalize (pmat this)) = pmat this)
      else pmat after = pmat this /\ pmat eigvecs = pmat this /\
           mat after = fst (dmat_diagonalize (mat this)) /\
           (after = this <-> fst (dmat_diagonalize (mat this)) = mat this))) /\
  (forall this : Matrix CM CP,
     let after :=
       fst (diagonalize_complex cmat_diagonalize cpmat_diagonalize this) in
     let eigvecs :=
       snd (snd (diagonalize_complex cmat_diagonalize cpmat_diagonalize
                   this)) in
     isDistributed after = isDistributed this /\
     isDistributed eigvecs = isDistributed this /\
     (if isDistributed this
      then mat after = mat this /\ mat eigvecs = mat this /\
           pmat after = fst (cpmat_diagonalize (pmat this)) /\
           (after = this <-> fst (cpmat_diagonalize (pmat this)) = pmat this)
      else pmat after = pmat this /\ pmat eigvecs = pmat this /\
           mat after = fst (cmat_diagonalize (mat this)) /\
           (after = this <-> fst (cmat_diagonalize (mat this)) = mat this))).
Proof.
  split; intros this; cbn zeta.
  - rewrite diagonalize_double_receiver, diagonalize_double_eigvecs.
    destruct (isDistributed this) eqn:Hd.
    + repeat split; try reflexivity; try exact Hd;
        try (apply set_pmat_eq); try (intros ->; apply set_pmat_same).
    + repeat split; try reflexivity; try exact Hd;
        try (apply set_mat_eq); try (intros ->; apply set_mat_same).
  - rewrite diagonalize_complex_receiver, diagonalize_complex_eigvecs.
    destruct (isDistributed this) eqn:Hd.
    + repeat split; try reflexivity; try exact Hd;
        try (apply set_pmat_eq); try (intros ->; apply set_pmat_same).
    + repeat split; try reflexivity; try exact Hd;
        try (apply set_mat_eq); try (intros ->; apply set_mat_same).
Qed.

End Wrapper.

(** C10, as stated, fails for a distributed store whose kernel works in
    place: the receiver held the 1x1 matrix (7) before the call and holds
    the eigenvector (1) after it.  With kernels that leave their store
    alone the receiver is unchanged. *)
Lemma diagonalize_in_place_counterexample :
  fst (diagonalize_double Dense.mat_diagonalize
         Dense.pmat_diagonalize_in_place (Dense.distributed [[7]]))
    = Dense.distributed [[1]] /\
  fst (diagonalize_double Dense.mat_diagonalize
         Dense.pmat_diagonalize_in_place (Dense.distributed [[7]]))
    <> Dense.distributed [[7]] /\
  snd (diagonalize_double Dense.mat_diagonalize
         Dense.pmat_diagonalize_in_place (Dense.distributed [[7]]))
    = ([7], Dense.distributed [[1]]) /\
  fst (diagonalize_double Dense.mat_diagonalize
         Dense.pmat_diagonalize (Dense.distributed [[7]]))
    = Dense.distributed [[7]].
Proof.
  split; [reflexivity|]. split; [|split; reflexivity].
  vm_compute. intros H. discriminate H.
Qed.

(** C3 at a failing input: the same two real matrices, flags 'T' and 'N'.
    The serial wrapper multiplies the transpose of the first by the second;
    the distributed wrapper, which drops the flags, multiplies the first by
    the second; the contents differ. *)
Theorem prod_double_transpose_modes_differ :
  let a := [[1; 2]; [3; 4]] in
  let b := [[1; 0]; [0; 1]] in
  Dense.content
    (Dense.prod_double (Dense.serial a) (Dense.serial b) "T" "N")
    = [[1; 3]; [2; 4]] /\
  Dense.content
    (Dense.prod_double (Dense.distributed a) (Dense.distributed b) "T" "N")
    = [[1; 2]; [3; 4]] /\
  Dense.content
    (Dense.prod_double (Dense.distributed a) (Dense.distributed b) "T" "N")
  <> Dense.content
    (Dense.prod_double (Dense.serial a) (Dense.serial b) "T" "N").
Proof.
  split; [reflexivity|]. split; [reflexivity|].
  vm_compute. intros H. discriminate H.
Qed.

(** Without transposition the two modes of the double wrapper agree. *)
Lemma prod_double_modes_agree_NN (a b : Dense.matrix) :
  Dense.content
    (Dense.prod_double (Dense.distributed a) (Dense.distributed b) "N" "N") =
  Dense.content
    (Dense.prod_double (Dense.serial a) (Dense.serial b) "N" "N").
Proof. reflexivity. Qed.

End SMatrixFacts.

(** ** The driver *)

Module PhononTransportAppFacts.

Import PhononTransportApp.

(** *** The solver flags *)

Lemma solver_flags_snoc l s :
  solver_flags (l ++ [s]) =
  let '(doIterative, doVariational, doRelaxons) := solver_flags l in
  (if String.eqb s "iterative" then true else doIterative,
   if String.eqb s "variational" then true else doVariational,
   if String.eqb s "relaxons" then true else doRelaxons).
Proof.
  unfold solver_flags. rewrite fold_left_app. simpl.
  destruct (fold_left _ l _) as [[a b] c]. reflexivity.
Qed.

Lemma solver_flags_existsb l :
  solver_flags l =
  (existsb (fun s => String.eqb s "iterative") l,
   existsb (fun s => String.eqb s "variational") l,
   existsb (fun s => String.eqb s "relaxons") l).
Proof.
  induction l as [|s l IH] using rev_ind; [reflexivity|].
  rewrite solver_flags_snoc, IH, !existsb_app. simpl.
  rewrite !orb_false_r.
  destruct (String.eqb s "iterative"), (String.eqb s "variational"),
    (String.eqb s "relaxons"); rewrite ?orb_true_r, ?orb_false_r;
    reflexivity.
Qed.

Lemma doRelaxons_iff l :
  snd (solver_flags l) = true <-> In "relaxons"%string l.
Proof.
  rewrite solver_flags_existsb. simpl. rewrite existsb_exists. split.
  - intros (s & Hin & Heq). apply String.eqb_eq in Heq. subst. exact Hin.
  - intros Hin. exists "relaxons"%string. split; [exact Hin|].
    apply String.eqb_refl.
Qed.

Section Run.

Context {V K Sc Mx : Type} {W : Collaborators V K Sc Mx}.
Variable context : Context Sc.

(** *** The computation monad *)

Lemma bind_emit {B} (e : event K) (k : M K B) :
  (emit e ;; k) = (e :: fst k, snd k).
Proof. destruct k as [t r]. reflexivity. Qed.

Lemma bind_ok {A B} (t : list (event K)) (a : A) (f : A -> M K B) :
  mbind f ((t, Ok a) : M K A) = (t ++ fst (f a), snd (f a)).
Proof. simpl. destruct (f a). reflexivity. Qed.

Lemma bind_fatal {A B} (t : list (event K)) msg (f : A -> M K B) :
  mbind f ((t, Fatal msg) : M K A) = (t, Fatal msg).
Proof. reflexivity. Qed.

(** *** The RTA stage *)

(** The stage runs to its end when the constructor of the scattering
    matrix and [setup()] return. *)
Lemma rta_stage_eq numCalcs :
  assembles context numCalcs ->
  rta_stage context numCalcs = (rta_events, Ok (popRTA_of, kRTA_of)).
Proof. intros [Hc Hs]. unfold rta_stage. rewrite Hc, Hs. reflexivity. Qed.

(** It stops at the constructor, or at [setup()], when that raises. *)
Lemma rta_stage_constructor_raises numCalcs msg :
  constructScatteringMatrix context numCalcs = Fatal msg ->
  rta_stage context numCalcs = (events_to_constructor, Fatal msg).
Proof. intros Hc. unfold rta_stage. rewrite Hc. reflexivity. Qed.

Lemma rta_stage_setup_raises numCalcs msg :
  constructScatteringMatrix context numCalcs = Ok tt ->
  setup context numCalcs = Fatal msg ->
  rta_stage context numCalcs = (events_to_setup, Fatal msg).
Proof. intros Hc Hs. unfold rta_stage. rewrite Hc, Hs. reflexivity. Qed.

(** The three ways the stage can end. *)
Lemma rta_stage_cases numCalcs :
  (assembles context numCalcs /\
   rta_stage context numCalcs = (rta_events, Ok (popRTA_of, kRTA_of))) \/
  (exists msg,
     constructScatteringMatrix context numCalcs = Fatal msg /\
     rta_stage context numCalcs = (events_to_constructor, Fatal msg)) \/
  (exists msg,
     constructScatteringMatrix context numCalcs = Ok tt /\
     setup context numCalcs = Fatal msg /\
     rta_stage context numCalcs = (events_to_setup, Fatal msg)).
Proof.
  destruct (constructScatteringMatrix context numCalcs) as [[]|m] eqn:Hc.
  - destruct (setup context numCalcs) as [[]|m] eqn:Hs.
    + left. split; [split; assumption|].
      apply rta_stage_eq. split; assumption.
    + right. right. exists m. split; [reflexivity|]. split; [reflexivity|].
      apply rta_stage_setup_raises; assumption.
  - right. left. exists m. split; [reflexivity|].
    apply rta_stage_constructor_raises. exact Hc.
Qed.



(** An error of the stage is the error of the run. *)
Lemma run_stage_raises numCalcs tr msg :
  rta_stage context numCalcs = (tr, Fatal msg) ->
  run context numCalcs = (tr, Fatal msg).
Proof. intros H. unfold run. rewrite H. reflexivity. Qed.


(** *** Validation *)

Lemma validate_relaxons_not_in_memory numCalcs :
  getScatteringMatrixInMemory context = false ->
  validate (K := K) context true numCalcs = ([], Fatal relaxons_msg).
Proof. intros H. unfold validate. rewrite H. reflexivity. Qed.

Lemma validate_in_memory_many doRelaxons numCalcs :
  getScatteringMatrixInMemory context = true -> numCalcs <> 1 ->
  validate (K := K) context doRelaxons numCalcs = ([], Fatal in_memory_msg).
Proof.
  intros H Hn. unfold validate. rewrite H.
  apply Z.eqb_neq in Hn. rewrite Hn, andb_false_r. reflexivity.
Qed.

(** A run whose validation fails stops there: its events are those of
    the RTA stage. *)
Lemma run_validation_fails numCalcs msg :
  assembles context numCalcs ->
  validate (K := K) context (snd (solver_flags (getSolverBTE context))) numCalcs
    = ([], Fatal msg) ->
  run context numCalcs = (rta_events, Fatal msg).
Proof.
  intros Ha Hv. unfold run. rewrite (rta_stage_eq numCalcs Ha), bind_ok.
  destruct (solver_flags (getSolverBTE context)) as [[doI doV] doR].
  cbn [snd] in Hv. cbn beta iota. rewrite Hv, bind_fatal.
  cbn [fst snd]. rewrite app_nil_r. reflexivity.
Qed.

(** Whatever the constructor and [setup()] do, a run whose validation
    fails ends in an error. *)
Lemma run_fatal_of_validation numCalcs msg :
  validate (K := K) context (snd (solver_flags (getSolverBTE context))) numCalcs
    = ([], Fatal msg) ->
  is_fatal (snd (run context numCalcs)) = true.
Proof.
  intros Hv.
  destruct (rta_stage_cases numCalcs)
    as [[Ha _] | [(m & _ & Hst) | (m & _ & _ & Hst)]].
  - rewrite (run_validation_fails numCalcs msg Ha Hv). reflexivity.
  - rewrite (run_stage_raises _ _ _ Hst). reflexivity.
  - rewrite (run_stage_raises _ _ _ Hst). reflexivity.
Qed.

(** C1: relaxons requested without the matrix in memory, or the matrix in
    memory with more than one calculation, ends the run in a fatal error,
    whatever the constructor of the scattering matrix and [setup()] do;
    when these two return, it is the error of the check (the first or the
    second message), raised right after the RTA stage. *)
Theorem run_precondition_fatal (numCalcs : Z) :
  (In "relaxons"%string (getSolverBTE context) /\
   getScatteringMatrixInMemory context = false ->
   is_fatal (snd (run context numCalcs)) = true /\
   (assembles context numCalcs ->
    run context numCalcs = (rta_events, Fatal relaxons_msg))) /\
  (getScatteringMatrixInMemory context = true /\ 1 < numCalcs ->
   is_fatal (snd (run context numCalcs)) = true /\
   (assembles context numCalcs ->
    run context numCalcs = (rta_events, Fatal in_memory_msg))).
Proof.
  split.
  - intros [Hrel Hmem].
    assert (Hv : validate (K := K) context
                   (snd (solver_flags (getSolverBTE context))) numCalcs
                 = ([], Fatal relaxons_msg)).
    { apply doRelaxons_iff in Hrel. rewrite Hrel.
      apply validate_relaxons_not_in_memory. exact Hmem. }
    split.
    + exact (run_fatal_of_validation numCalcs _ Hv).
    + intros Ha. exact (run_validation_fails numCalcs _ Ha Hv).
  - intros [Hmem Hn].
    assert (Hv : validate (K := K) context
                   (snd (solver_flags (getSolverBTE context))) numCalcs
                 = ([], Fatal in_memory_msg)).
    { apply validate_in_memory_many; [exact Hmem | lia]. }
    split.
    + exact (run_fatal_of_validation numCalcs _ Hv).
    + intros Ha. exact (run_validation_fails numCalcs _ Ha Hv).
Qed.




(** *** The Omini-Sparavigna loop *)

Section Omini.

Variable popRTA : V.
Variable kRTA : K.

Local Abbreviation fRTA := (population2Canonical popRTA).
Local Abbreviation threshold := (getConvergenceThresholdBTE context).
Local Abbreviation maxIter := (getMaxIterationsBTE context).
Local Abbreviation it := (omini_iterate popRTA kRTA).
Local Abbreviation converged_at := (omini_converged_at threshold popRTA kRTA).
Local Abbreviation passes := (PhononTransportApp.passes popRTA kRTA).

Lemma omini_step_iterate l :
  omini_step fRTA diagonal (fst (it l)) (snd (it l)) = it (S l).
Proof.
  unfold omini_step. simpl. destruct (it l) as [f k]. reflexivity.
Qed.

(** One pass of the loop. *)
Lemma omini_loop_S n iter d th fOld kOld k :
  omini_loop context (S n) iter fRTA d th fOld kOld k =
  let fk := omini_step fRTA d fOld k in
  let rest : M K K :=
    if ltb (getNormMaxCoeff (ksub (snd fk) kOld)) th
    then ret (snd fk)
    else if iter =? maxIter - 1
         then Error convergence_msg
         else omini_loop context n (iter + 1) fRTA d th
                (fst fk) (snd fk) (snd fk) in
  (OffDiagonalDot :: TCondPrintIter (snd fk) iter :: fst rest, snd rest).
Proof.
  cbn [omini_loop]. rewrite bind_emit.
  destruct (omini_step fRTA d fOld k) as [fNext k'].
  cbn [fst snd]. rewrite bind_emit. reflexivity.
Qed.

(** From iterate [j], with [m] more passes that fail the test and then
    one that meets it, the loop breaks with the conductivity of iterate
    [j+m+1]. *)
Lemma omini_loop_converges_from m : forall j n,
  (m < n)%nat ->
  Z.of_nat (j + m) < maxIter ->
  (forall l, (j <= l < j + m)%nat -> converged_at l = false) ->
  converged_at (j + m) = true ->
  omini_loop context n (Z.of_nat j) fRTA diagonal threshold
    (fst (it j)) (snd (it j)) (snd (it j))
  = (passes j (S m), Ok (snd (it (S (j + m))))).
Proof.
  induction m as [|m IH]; intros j n Hn Hlt Hno Hyes;
    (destruct n as [|n]; [lia|]);
    rewrite omini_loop_S, omini_step_iterate; cbn zeta.
  - rewrite Nat.add_0_r in Hyes. unfold omini_converged_at in Hyes.
    rewrite Hyes. rewrite Nat.add_0_r. reflexivity.
  - pose proof (Hno j ltac:(lia)) as Hj.
    unfold omini_converged_at in Hj. rewrite Hj.
    replace (Z.of_nat j =? maxIter - 1) with false
      by (symmetry; apply Z.eqb_neq; lia).
    replace (Z.of_nat j + 1) with (Z.of_nat (S j)) by lia.
    rewrite (IH (S j) n); try lia.
    + replace (S j + m)%nat with (j + S m)%nat by lia. reflexivity.
    + intros l Hl. apply Hno. lia.
    + replace (S j + m)%nat with (j + S m)%nat by lia. exact Hyes.
Qed.

(** From iterate [j], if none of the [n >= 1] passes left in the budget
    meets the test, the last of them raises the convergence error. *)
Lemma omini_loop_exhausted_from n : forall j,
  (1 <= n)%nat ->
  Z.of_nat (j + n) = maxIter ->
  (forall l, (j <= l < j + n)%nat -> converged_at l = false) ->
  omini_loop context n (Z.of_nat j) fRTA diagonal threshold
    (fst (it j)) (snd (it j)) (snd (it j))
  = (passes j n, Fatal convergence_msg).
Proof.
  induction n as [|n IH]; intros j Hn Hend Hno; [lia|].
  rewrite omini_loop_S, omini_step_iterate; cbn zeta.
  pose proof (Hno j ltac:(lia)) as Hj.
  unfold omini_converged_at in Hj. rewrite Hj.
  destruct (Z.eqb_spec (Z.of_nat j) (maxIter - 1)) as [Heq | Hne].
  - assert (n = 0)%nat as -> by lia. reflexivity.
  - replace (Z.of_nat j + 1) with (Z.of_nat (S j)) by lia.
    rewrite (IH (S j)); try lia.
    + reflexivity.
    + intros l Hl. apply Hno. lia.
Qed.

Lemma omini_loop_converges (i : nat) :
  Z.of_nat i < maxIter ->
  (forall l, (l < i)%nat -> converged_at l = false) ->
  converged_at i = true ->
  omini_loop context (Z.to_nat maxIter) 0 fRTA diagonal threshold
    fRTA kRTA kRTA
  = (passes 0 (S i), Ok (snd (it (S i)))).
Proof.
  intros Hlt Hno Hyes.
  apply (omini_loop_converges_from i 0 (Z.to_nat maxIter)).
  - lia.
  - simpl. lia.
  - intros l Hl. apply Hno. lia.
  - exact Hyes.
Qed.

Lemma omini_loop_exhausted :
  1 <= maxIter ->
  (forall l, (l < Z.to_nat maxIter)%nat -> converged_at l = false) ->
  omini_loop context (Z.to_nat maxIter) 0 fRTA diagonal threshold
    fRTA kRTA kRTA
  = (passes 0 (Z.to_nat maxIter), Fatal convergence_msg).
Proof.
  intros Hb Hno.
  apply (omini_loop_exhausted_from (Z.to_nat maxIter) 0).
  - lia.
  - simpl. lia.
  - intros l Hl. apply Hno. lia.
Qed.

(** A conductivity comes out of a loop with a budget of at least one pass
    only through the break, that is after meeting the test against the
    conductivity of the pass before. *)
Lemma omini_loop_ok_met_test n : forall iter d th fOld kOld k tr kOut,
  (1 <= n)%nat ->
  iter + Z.of_nat n = maxIter ->
  omini_loop context n iter fRTA d th fOld kOld k = (tr, Ok kOut) ->
  exists kPrev, ltb (getNormMaxCoeff (ksub kOut kPrev)) th = true.
Proof.
  induction n as [|n IH]; intros iter d th fOld kOld k tr kOut Hn Hend Hrun;
    [lia|].
  rewrite omini_loop_S in Hrun. cbn zeta in Hrun.
  destruct (ltb _ th) eqn:Htest.
  - inversion Hrun; subst. eauto.
  - destruct (Z.eqb_spec iter (maxIter - 1)) as [Heq | Hne].
    + inversion Hrun.
    + destruct (omini_loop context n _ _ _ _ _ _ _) as [t r] eqn:Hrec.
      cbn [fst snd] in Hrun. inversion Hrun; subst.
      eapply IH; [| |exact Hrec]; lia.
Qed.

(** With an empty budget the loop does nothing and hands back the
    conductivity it was given. *)
Lemma omini_loop_no_budget d th fOld kOld k :
  maxIter <= 0 ->
  omini_loop context (Z.to_nat maxIter) 0 fRTA d th fOld kOld k = ([], Ok k).
Proof.
  intros H. replace (Z.to_nat maxIter) with 0%nat by lia. reflexivity.
Qed.

(** The block of the iterative solver around the loop. *)
Lemma iterative_solver_eq :
  iterative_solver context popRTA kRTA =
  let loop :=
    omini_loop context (Z.to_nat maxIter) 0 fRTA diagonal threshold
      fRTA kRTA kRTA in
  match snd loop with
  | Ok k =>
      (Diagonal :: fst loop ++
         [TCondPrint k; TCondOutputJSON k "omini_phonon_thermal_cond.json"],
       Ok k)
  | Fatal msg => (Diagonal :: fst loop, Fatal msg)
  end.
Proof.
  unfold iterative_solver. rewrite bind_emit. cbn zeta.
  destruct (omini_loop context _ _ _ _ _ _ _ _) as [t [k | msg]];
    reflexivity.
Qed.

(** C5: pass [l] of the loop computes iterate [l+1] from iterate [l] by
    [next = canonical(RTA) - offDiagonalDot(current)/diagonal], and the
    iterative solver ends successfully at the first pass [i] whose
    conductivity differs from that of the pass before by less than the
    threshold (max coefficient of the norm of the difference): it has run
    passes [0..i], and prints and writes the conductivity of iterate
    [i+1]. *)
Theorem iterative_solver_converges (i : nat) :
  Z.of_nat i < maxIter ->
  (forall l, (l < i)%nat -> converged_at l = false) ->
  converged_at i = true ->
  (forall l, omini_step fRTA diagonal (fst (it l)) (snd (it l))
             = it (S l)) /\
  iterative_solver context popRTA kRTA =
    (Diagonal :: passes 0 (S i) ++
       [TCondPrint (snd (it (S i)));
        TCondOutputJSON (snd (it (S i))) "omini_phonon_thermal_cond.json"],
     Ok (snd (it (S i)))).
Proof.
  intros Hlt Hno Hyes. split; [exact omini_step_iterate|].
  rewrite iterative_solver_eq. cbn zeta.
  rewrite (omini_loop_converges i Hlt Hno Hyes). reflexivity.
Qed.

(** For a budget of at least one pass, an iterative solver that never
    meets the test ends in the convergence error and writes nothing. *)
Lemma iterative_solver_exhausted :
  1 <= maxIter ->
  (forall l, (l < Z.to_nat maxIter)%nat -> converged_at l = false) ->
  iterative_solver context popRTA kRTA =
    (Diagonal :: passes 0 (Z.to_nat maxIter), Fatal convergence_msg).
Proof.
  intros Hb Hno. rewrite iterative_solver_eq. cbn zeta.
  rewrite (omini_loop_exhausted Hb Hno). reflexivity.
Qed.

(** With a budget of zero (or less) the iterative solver prints and
    writes the conductivity it was given, and raises nothing. *)
Lemma iterative_solver_no_budget :
  maxIter <= 0 ->
  iterative_solver context popRTA kRTA =
    ([Diagonal; TCondPrint kRTA;
      TCondOutputJSON kRTA "omini_phonon_thermal_cond.json"], Ok kRTA).
Proof.
  intros H. rewrite iterative_solver_eq. cbn zeta.
  rewrite omini_loop_no_budget by exact H. reflexivity.
Qed.

End Omini.

(** *** The variational loop *)

Local Abbreviation maxIter := (getMaxIterationsBTE context).

(** As for the iterative loop: with a budget of at least one pass, a
    conductivity comes out only through the break. *)
Lemma variational_loop_ok_met_test n :
  forall iter d ds th fOld gOld hOld tOld kOld k tr kOut,
  (1 <= n)%nat ->
  iter + Z.of_nat n = maxIter ->
  variational_loop context n iter d ds th fOld gOld hOld tOld kOld k
    = (tr, Ok kOut) ->
  exists kPrev, ltb (getNormMaxCoeff (ksub kOut kPrev)) th = true.
Proof.
  induction n as [|n IH];
    intros iter d ds th fOld gOld hOld tOld kOld k tr kOut Hn Hend Hrun;
    [lia|].
  cbn [variational_loop] in Hrun. rewrite !bind_emit in Hrun.
  match type of Hrun with
  | context [ltb ?x th] => destruct (ltb x th) eqn:Htest
  end.
  - inversion Hrun; subst. eauto.
  - destruct (Z.eqb_spec iter (maxIter - 1)) as [Heq | Hne].
    + inversion Hrun.
    + cbn [fst snd] in Hrun.
      match type of Hrun with
      | context [variational_loop ?c n ?i ?a1 ?a2 ?a3 ?a4 ?a5 ?a6 ?a7 ?a8 ?a9] =>
          destruct (variational_loop c n i a1 a2 a3 a4 a5 a6 a7 a8 a9)
            as [t r] eqn:Hrec
      end.
      cbn [fst snd] in Hrun. inversion Hrun; subst.
      eapply IH; [| |exact Hrec]; lia.
Qed.

(** With a budget of zero (or less) the variational solver prints and
    writes the conductivity it was given, and raises nothing. *)
Lemma variational_solver_no_budget popRTA k :
  maxIter <= 0 ->
  variational_solver context popRTA k =
    ([Diagonal; Diagonal; Dot; Dot; TCondPrint k;
      TCondOutputJSON k "variational_phonon_thermal_cond.json"], Ok k).
Proof.
  intros H. unfold variational_solver.
  replace (Z.to_nat maxIter) with 0%nat by lia. reflexivity.
Qed.

End Run.

(** *** The one-state system *)

Lemma assembles_system coupling context numCalcs :
  assembles (W := Synthetic.system coupling) context numCalcs.
Proof. split; reflexivity. Qed.

Lemma run_precondition_fatal_witness :
  ((In "relaxons"%string (getSolverBTE Synthetic.ctx_relaxons_not_in_memory) /\
    getScatteringMatrixInMemory Synthetic.ctx_relaxons_not_in_memory = false) /\
   is_fatal (snd (Synthetic.run (1 # 2)
                    Synthetic.ctx_relaxons_not_in_memory 1)) = true /\
   assembles (W := Synthetic.system (1 # 2))
     Synthetic.ctx_relaxons_not_in_memory 1 /\
   Synthetic.run (1 # 2) Synthetic.ctx_relaxons_not_in_memory 1
     = (rta_events (W := Synthetic.system (1 # 2)), Fatal relaxons_msg)) /\
  ((getScatteringMatrixInMemory Synthetic.ctx_relaxons_in_memory = true /\
    1 < 2) /\
   is_fatal (snd (Synthetic.run (1 # 2)
                    Synthetic.ctx_relaxons_in_memory 2)) = true /\
   assembles (W := Synthetic.system (1 # 2))
     Synthetic.ctx_relaxons_in_memory 2 /\
   Synthetic.run (1 # 2) Synthetic.ctx_relaxons_in_memory 2
     = (rta_events (W := Synthetic.system (1 # 2)), Fatal in_memory_msg)).
Proof.
  assert (H1 : In "relaxons"%string
                 (getSolverBTE Synthetic.ctx_relaxons_not_in_memory) /\
               getScatteringMatrixInMemory
                 Synthetic.ctx_relaxons_not_in_memory = false)
    by (split; [left; reflexivity | reflexivity]).
  assert (H2 : getScatteringMatrixInMemory Synthetic.ctx_relaxons_in_memory
               = true /\ 1 < 2)
    by (split; [reflexivity | lia]).
  pose proof (assembles_system (1 # 2)
                Synthetic.ctx_relaxons_not_in_memory 1) as A1.
  pose proof (assembles_system (1 # 2)
                Synthetic.ctx_relaxons_in_memory 2) as A2.
  split.
  - split; [exact H1|].
    destruct (proj1 (run_precondition_fatal (W := Synthetic.system (1 # 2))
                       Synthetic.ctx_relaxons_not_in_memory 1) H1)
      as [Hf Hr].
    split; [exact Hf|]. split; [exact A1 | exact (Hr A1)].
  - split; [exact H2|].
    destruct (proj2 (run_precondition_fatal (W := Synthetic.system (1 # 2))
                       Synthetic.ctx_relaxons_in_memory 2) H2)
      as [Hf Hr].
    split; [exact Hf|]. split; [exact A2 | exact (Hr A2)].
Defined.



Lemma iterative_solver_converges_witness :
  (Z.of_nat 2 < getMaxIterationsBTE Synthetic.ctx_iterative /\
   (forall l, (l < 2)%nat ->
      omini_converged_at (W := Synthetic.system (1 # 2))
        (getConvergenceThresholdBTE Synthetic.ctx_iterative)
        1%Q 1%Q l = false) /\
   omini_converged_at (W := Synthetic.system (1 # 2))
     (getConvergenceThresholdBTE Synthetic.ctx_iterative)
     1%Q 1%Q 2 = true) /\
  Synthetic.iterative_solver (1 # 2) Synthetic.ctx_iterative 1%Q 1%Q =
    (Diagonal :: passes (W := Synthetic.system (1 # 2)) 1%Q 1%Q 0 3 ++
       [TCondPrint (5 # 8)%Q;
        TCondOutputJSON (5 # 8)%Q "omini_phonon_thermal_cond.json"],
     Ok (5 # 8)%Q).
Proof.
  assert (H1 : Z.of_nat 2 < getMaxIterationsBTE Synthetic.ctx_iterative)
    by (simpl; lia).
  assert (H2 : forall l, (l < 2)%nat ->
             omini_converged_at (W := Synthetic.system (1 # 2))
               (getConvergenceThresholdBTE Synthetic.ctx_iterative)
               1%Q 1%Q l = false).
  { intros l Hl. destruct l as [|[|l]]; [reflexivity | reflexivity | lia]. }
  assert (H3 : omini_converged_at (W := Synthetic.system (1 # 2))
                 (getConvergenceThresholdBTE Synthetic.ctx_iterative)
                 1%Q 1%Q 2 = true) by reflexivity.
  split; [auto|].
  exact (proj2 (iterative_solver_converges (W := Synthetic.system (1 # 2))
                  Synthetic.ctx_iterative 1%Q 1%Q 2 H1 H2 H3)).
Defined.

(** C4 at a failing input: both iteration solvers requested with a budget
    of zero iterations.  The run ends normally; it has written the RTA
    conductivity under the names of the iterative and of the variational
    result without running a single pass, although the first pass of the
    iterative solver would not have met the threshold. *)
Theorem zero_budget_run_writes_unconverged :
  exists tr,
    Synthetic.run (1 # 2) Synthetic.ctx_zero_budget 1 = (tr, Ok tt) /\
    In (TCondOutputJSON 1%Q "omini_phonon_thermal_cond.json") tr /\
    In (TCondOutputJSON 1%Q "variational_phonon_thermal_cond.json") tr /\
    forallb (fun e => negb (is_pass_event e)) tr = true /\
    omini_converged_at (W := Synthetic.system (1 # 2))
      (getConvergenceThresholdBTE Synthetic.ctx_zero_budget) 1%Q 1%Q 0
    = false.
Proof.
  eexists. split; [vm_compute; reflexivity|].
  split; [|split; [|split; reflexivity]].
  - do 20 right. left. reflexivity.
  - do 26 right. left. reflexivity.
Qed.

(** The same solver with a budget of five passes does raise the error
    when the test is never met (threshold 0 here). *)
Example iterative_budget_five_never_met :
  Synthetic.iterative_solver (1 # 2)
    (mkContext ["iterative"%string] false 5 0%Q false) 1%Q 1%Q
  = (Diagonal :: passes (W := Synthetic.system (1 # 2)) 1%Q 1%Q 0 5,
     Fatal convergence_msg).
Proof. reflexivity. Qed.

End PhononTransportAppFacts.

(** ** The off-diagonal product *)

Module ScatteringMatrixFacts.

Import ScatteringMatrix.

Lemma row_dot_nil_l c : Dense.row_dot [] c = 0.
Proof. reflexivity. Qed.

Lemma row_dot_nil_r r : Dense.row_dot r [] = 0.
Proof. destruct r; reflexivity. Qed.

Lemma row_dot_cons x r y c :
  Dense.row_dot (x :: r) (y :: c) = x * y + Dense.row_dot r c.
Proof. reflexivity. Qed.

Lemma row_dot_zeros n : forall c, Dense.row_dot (replicate n 0) c = 0.
Proof.
  induction n as [|n IH]; intros [|y c]; try reflexivity.
  simpl replicate. rewrite row_dot_cons, IH. lia.
Qed.

(** A row that is zero but for [x] in column [i] picks [x * c(i)]. *)
Lemma row_dot_unit n : forall (i : nat) x c,
  (i < n)%nat ->
  Dense.row_dot (<[i := x]> (replicate n 0)) c = x * nth i c 0.
Proof.
  induction n as [|n IH]; intros i x c Hi; [lia|].
  destruct c as [|y c].
  - rewrite row_dot_nil_r. destruct i; simpl; lia.
  - destruct i as [|i]; simpl replicate; simpl insert; simpl nth;
      rewrite row_dot_cons.
    + rewrite row_dot_zeros. lia.
    + rewrite IH by lia. lia.
Qed.

Lemma row_dot_sub r : forall d c,
  length r = length d ->
  Dense.row_dot (zip_with Z.sub r d) c
  = Dense.row_dot r c - Dense.row_dot d c.
Proof.
  induction r as [|x r IH]; intros [|z d] c Hlen; try discriminate.
  - reflexivity.
  - destruct c as [|y c]; [rewrite !row_dot_nil_r; reflexivity|].
    simpl zip_with. rewrite !row_dot_cons, IH by (simpl in Hlen; lia). lia.
Qed.

(** One row of [A - diag(A)] applied to a component. *)
Lemma off_diagonal_row (i : nat) row c :
  (i < length row)%nat ->
  Dense.row_dot
    (zip_with Z.sub row (<[i := nth i row 0]> (replicate (length row) 0))) c
  = Dense.row_dot row c - nth i row 0 * nth i c 0.
Proof.
  intros Hi.
  rewrite row_dot_sub by (rewrite length_insert, length_replicate; reflexivity).
  rewrite row_dot_unit by exact Hi. reflexivity.
Qed.

(** One component: the explicit multiply is the full product minus the
    diagonal times the component. *)
Lemma off_diagonal_component n (A : list (list Z)) (c : list Z) :
  square n A -> length c = n ->
  dot1 (off_diagonal_matrix A) c
  = zip_with Z.sub (dot1 A c) (zip_with Z.mul (diagonal A) c).
Proof.
  intros [HA Hrows] Hc. apply list_eq. intros i.
  unfold dot1, off_diagonal_matrix, diag_matrix, diagonal.
  rewrite list_lookup_fmap, !lookup_zip_with, list_lookup_fmap,
    !list_lookup_imap.
  destruct (A !! i) as [row|] eqn:Hrow; [|reflexivity].
  simpl.
  assert (Hlen : length row = n).
  { rewrite Forall_forall in Hrows. apply Hrows.
    eapply list_elem_of_lookup_2, Hrow. }
  assert (Hi : (i < n)%nat).
  { rewrite <- HA. eapply lookup_lt_Some, Hrow. }
  destruct (c !! i) as [ci|] eqn:Hci.
  - simpl. f_equal. rewrite off_diagonal_row by lia.
    rewrite (nth_lookup c), Hci. reflexivity.
  - apply lookup_ge_None in Hci. lia.
Qed.

Lemma zip_with_fmap_same {A B C D} (f : B -> C -> D) (g : A -> B)
    (h : A -> C) (l : list A) :
  zip_with f (map g l) (map h l) = map (fun x => f (g x) (h x)) l.
Proof. induction l as [|x l IH]; simpl; [reflexivity | now rewrite IH]. Qed.

(** C8: for a square matrix and a vector whose components have its
    dimension, [offDiagonalDot] is [dot] minus the elementwise product with
    the diagonal, and that equals the explicit multiply by
    [A - diag(A)]. *)
Theorem offDiagonalDot_explicit (n : nat) (A : matrix) (v : vectorBTE) :
  square n A -> shaped n v ->
  offDiagonalDot A v = vsub (dot A v) (vmul_diag (diagonal A) v) /\
  offDiagonalDot A v = explicit_offDiagonalDot A v.
Proof.
  intros HA Hv. split; [reflexivity|].
  unfold offDiagonalDot, explicit_offDiagonalDot, vsub, dot, vmul_diag.
  rewrite zip_with_fmap_same.
  apply map_ext_in. intros c Hc.
  symmetry. apply (off_diagonal_component n); [exact HA|].
  unfold shaped in Hv. rewrite Forall_forall in Hv.
  apply Hv, list_elem_of_In, Hc.
Qed.

Lemma offDiagonalDot_explicit_witness :
  let A := [[1; 2]; [3; 4]] in
  let v := [[5; 6]; [1; 1]; [0; 7]] in
  (square 2 A /\ shaped 2 v) /\
  offDiagonalDot A v = vsub (dot A v) (vmul_diag (diagonal A) v) /\
  offDiagonalDot A v = explicit_offDiagonalDot A v.
Proof.
  assert (HA : square 2 [[1; 2]; [3; 4]])
    by (split; [reflexivity | repeat constructor]).
  assert (Hv : shaped 2 [[5; 6]; [1; 1]; [0; 7]])
    by (repeat constructor).
  split; [split; assumption|].
  exact (offDiagonalDot_explicit 2 [[1; 2]; [3; 4]]
           [[5; 6]; [1; 1]; [0; 7]] HA Hv).
Defined.

Example offDiagonalDot_two_states :
  offDiagonalDot [[1; 2]; [3; 4]] [[5; 6]] = [[12; 15]].
Proof. reflexivity. Qed.

End ScatteringMatrixFacts.

(** ** The round trip between population and canonical form *)

Module VectorBTEFacts.

Import VectorBTE.

Local Open Scope Q_scope.

Section RoundTrip.

Variable bose : nat -> nat -> Q.

(** Positive occupation numbers give positive occupation factors. *)
Lemma popFactor_pos c s : 0 < bose c s -> 0 < popFactor bose c s.
Proof.
  intros Hb. unfold popFactor.
  apply Qmult_lt_0_compat; [exact Hb|].
  apply Qlt_trans with (bose c s); [exact Hb|].
  rewrite <- (Qplus_0_r (bose c s)) at 1.
  apply Qplus_lt_r. reflexivity.
Qed.

Lemma factors_nonzero_of_pos (v : vectorBTE) :
  (forall c s, 0 < bose c s) -> factors_nonzero bose v.
Proof.
  intros Hb c comp s x _ _ H.
  pose proof (popFactor_pos c s (Hb c s)) as Hp.
  rewrite H in Hp. exact (Qlt_irrefl 0 Hp).
Qed.

Lemma times_then_over c s x :
  ~ popFactor bose c s == 0 ->
  x * popFactor bose c s / popFactor bose c s == x.
Proof. intros H. field. exact H. Qed.

Lemma over_then_times c s x :
  ~ popFactor bose c s == 0 ->
  x / popFactor bose c s * popFactor bose c s == x.
Proof. intros H. field. exact H. Qed.

(** The two maps composed, on one component. *)
Lemma component_round_trip (f g : nat -> Q -> Q) (comp : list Q) :
  (forall s x, comp !! s = Some x -> f s (g s x) == x) ->
  Forall2 Qeq (imap f (imap g comp)) comp.
Proof.
  intros Hfg. apply Forall2_lookup. intros s.
  rewrite !list_lookup_imap.
  destruct (comp !! s) as [x|] eqn:Hx; simpl; constructor.
  apply Hfg. exact Hx.
Qed.

Lemma vector_round_trip (f g : nat -> nat -> Q -> Q) (v : list (list Q)) :
  (forall c comp s x,
     v !! c = Some comp -> comp !! s = Some x -> f c s (g c s x) == x) ->
  veq (imap (fun c comp => imap (f c) comp)
         (imap (fun c comp => imap (g c) comp) v)) v.
Proof.
  intros Hfg. apply Forall2_lookup. intros c.
  rewrite !list_lookup_imap.
  destruct (v !! c) as [comp|] eqn:Hc; simpl; constructor.
  apply component_round_trip. intros s x Hx.
  apply (Hfg c comp s x); [exact Hc | exact Hx].
Qed.

(** C9 (amended): on a State-Pair Vector none of whose entries has a zero
    occupation factor [bose(bose+1)], [population2Canonical] and its
    inverse undo each other, in either order. *)
Theorem population_canonical_round_trip (v : vectorBTE) :
  factors_nonzero bose v ->
  veq (population2Canonical bose (canonical2Population bose v)) v /\
  veq (canonical2Population bose (population2Canonical bose v)) v.
Proof.
  intros Hnz. split.
  - apply (vector_round_trip
             (fun c s x => x / popFactor bose c s)
             (fun c s x => x * popFactor bose c s)).
    intros c comp s x Hc Hx. apply times_then_over.
    exact (Hnz c comp s x Hc Hx).
  - apply (vector_round_trip
             (fun c s x => x * popFactor bose c s)
             (fun c s x => x / popFactor bose c s)).
    intros c comp s x Hc Hx. apply over_then_times.
    exact (Hnz c comp s x Hc Hx).
Qed.

(** The condition is needed: where the occupation factor is zero, the
    round trip gives back 0, whatever the entry was. *)
Lemma round_trip_at_zero_factor (v : list (list Q)) c (comp : list Q) s x :
  v !! c = Some comp -> comp !! s = Some x ->
  popFactor bose c s == 0 ->
  exists comp' y,
    canonical2Population bose (population2Canonical bose v) !! c
      = Some comp' /\
    comp' !! s = Some y /\ y == 0.
Proof.
  intros Hc Hx Hz.
  exists (imap (fun s x => x * popFactor bose c s)
            (imap (fun s x => x / popFactor bose c s) comp)),
         (x / popFactor bose c s * popFactor bose c s).
  split; [|split].
  - unfold canonical2Population, population2Canonical, vectorBTE, component.
    rewrite !list_lookup_imap, Hc. reflexivity.
  - unfold component. rewrite !list_lookup_imap, Hx. reflexivity.
  - rewrite Hz. apply Qmult_0_r.
Qed.

End RoundTrip.

Lemma population_canonical_round_trip_witness :
  let bose := fun c s : nat => inject_Z (Z.of_nat (c + s + 1)) in
  let v := [[1 # 2; 3]; [5; 7 # 3]] in
  factors_nonzero bose v /\
  veq (population2Canonical bose (canonical2Population bose v)) v /\
  veq (canonical2Population bose (population2Canonical bose v)) v.
Proof.
  assert (Hb : forall c s : nat, 0 < inject_Z (Z.of_nat (c + s + 1))).
  { intros c s. unfold Qlt. simpl. lia. }
  pose proof (factors_nonzero_of_pos
                (fun c s : nat => inject_Z (Z.of_nat (c + s + 1)))
                [[1 # 2; 3]; [5; 7 # 3]] Hb) as Hnz.
  split; [exact Hnz|].
  exact (population_canonical_round_trip
           (fun c s : nat => inject_Z (Z.of_nat (c + s + 1)))
           [[1 # 2; 3]; [5; 7 # 3]] Hnz).
Defined.

(** C9, as stated, fails for a vector with an entry whose occupation
    number is 0: the occupation factor is 0 there, and neither order of
    the round trip gives the entry back. *)
Lemma population_canonical_zero_factor_counterexample :
  let bose := fun c s : nat => 0 in
  let v := [[1]] in
  population2Canonical bose (canonical2Population bose v) = [[0]] /\
  canonical2Population bose (population2Canonical bose v) = [[0]] /\
  ~ veq (population2Canonical bose (canonical2Population bose v)) v /\
  ~ veq (canonical2Population bose (population2Canonical bose v)) v.
Proof.
  split; [reflexivity|]. split; [reflexivity|].
  split; intros H; inversion H as [|? ? ? ? Hc _]; subst;
    inversion Hc as [|? ? ? ? Hx _]; subst; vm_compute in Hx;
    discriminate Hx.
Qed.

Example population2Canonical_two_states :
  population2Canonical (fun _ _ => 1) [[4; 6]] = [[4 / 2; 6 / 2]].
Proof. reflexivity. Qed.

End VectorBTEFacts.

(** ** More on the work division *)

Module MPIcontrollerMore.

Import MPIcontroller CIntFacts MPIcontrollerFacts.

Lemma workHead_workTail_witness :
  let c := mk 3 1 [] [] 1 1 0 0 in
  (0 <= 10 <= INT_MAX /\ 1 <= size c <= INT_MAX /\ 0 <= rank c < size c) /\
  workHead (divideWork c 10) = Some (10 * rank c / size c) /\
  workTail (divideWork c 10) = Some (10 * (rank c + 1) / size c).
Proof.
  assert (H1 : 0 <= 10 <= INT_MAX) by (unfold INT_MAX; lia).
  assert (H2 : 1 <= 3 <= INT_MAX) by (unfold INT_MAX; lia).
  assert (H3 : 0 <= 1 < 3) by lia.
  split; [auto|].
  exact (workHead_workTail (mk 3 1 [] [] 1 1 0 0) 10 H1 H2 H3).
Defined.

Lemma divideWork_noclear_eq_witness :
  let c := mk 3 1 [7; 7; 7; 7; 7] [9] 1 1 0 0 in
  0 <= size c /\ divideWork_noclear c 10 = divideWork c 10.
Proof.
  assert (H : 0 <= 3) by lia.
  split; [exact H|].
  exact (divideWork_noclear_eq (mk 3 1 [7; 7; 7; 7; 7] [9] 1 1 0 0) 10 H).
Defined.

(** Consecutive cut points differ by the quotient or by one more. *)
Lemma cut_step N P r :
  0 <= N -> 1 <= P -> 0 <= r ->
  cut N P (r + 1) - cut N P r = N / P \/
  cut N P (r + 1) - cut N P r = N / P + 1.
Proof.
  intros HN HP Hr. unfold cut.
  pose proof (Z.div_mod N P ltac:(lia)) as HNd.
  pose proof (Z.mod_pos_bound N P ltac:(lia)) as HNm.
  set (q := N / P) in *. set (m := N mod P) in *.
  assert (Hr1 : N * (r + 1) = (q * (r + 1)) * P + m * (r + 1)) by nia.
  assert (Hr0 : N * r = (q * r) * P + m * r) by nia.
  rewrite Hr1, Hr0.
  rewrite !Z.div_add_l by lia.
  pose proof (Z.div_mod (m * r) P ltac:(lia)) as Hd0.
  pose proof (Z.mod_pos_bound (m * r) P ltac:(lia)) as Hm0.
  pose proof (Z.div_mod (m * (r + 1)) P ltac:(lia)) as Hd1.
  pose proof (Z.mod_pos_bound (m * (r + 1)) P ltac:(lia)) as Hm1.
  set (a := m * r / P) in *. set (b := m * (r + 1) / P) in *.
  assert (b - a = 0 \/ b - a = 1) as [Hba | Hba] by nia; nia.
Qed.

(** The division is balanced: the range that [workHead()] and
    [workTail()] hand out on a process holds the quotient [numTasks / P]
    of tasks, or one task more. *)
Theorem divideWork_balanced (c : t) (numTasks : Z) :
  0 <= numTasks <= INT_MAX -> 1 <= size c <= INT_MAX ->
  0 <= rank c < size c ->
  exists h tl,
    workHead (divideWork c numTasks) = Some h /\
    workTail (divideWork c numTasks) = Some tl /\
    (tl - h = numTasks / size c \/ tl - h = numTasks / size c + 1).
Proof.
  intros HN HP Hr.
  destruct (work_range c numTasks (rank c) HN HP Hr) as [Hh Ht].
  rewrite <- (rank_divideWork c numTasks), on_rank_self in Hh, Ht.
  rewrite (rank_divideWork c numTasks) in Hh, Ht.
  exists (cut numTasks (size c) (rank c)),
         (cut numTasks (size c) (rank c + 1)).
  split; [exact Hh|]. split; [exact Ht|].
  apply cut_step; lia.
Qed.

Lemma divideWork_balanced_witness :
  let c := mk 3 2 [] [] 1 1 0 0 in
  (0 <= 10 <= INT_MAX /\ 1 <= size c <= INT_MAX /\ 0 <= rank c < size c) /\
  exists h tl,
    workHead (divideWork c 10) = Some h /\
    workTail (divideWork c 10) = Some tl /\
    (tl - h = 10 / size c \/ tl - h = 10 / size c + 1).
Proof.
  assert (H1 : 0 <= 10 <= INT_MAX) by (unfold INT_MAX; lia).
  assert (H2 : 1 <= 3 <= INT_MAX) by (unfold INT_MAX; lia).
  assert (H3 : 0 <= 2 < 3) by lia.
  split; [auto|].
  exact (divideWork_balanced (mk 3 2 [] [] 1 1 0 0) 10 H1 H2 H3).
Defined.

(** In the build without MPI the one process gets all the work. *)
Theorem serial_process_gets_all (numTasks : Z) :
  0 <= numTasks <= INT_MAX ->
  exists c,
    construct_serial = Ok c /\
    workHead (divideWork c numTasks) = Some 0 /\
    workTail (divideWork c numTasks) = Some numTasks.
Proof.
  intros HN. exists (mk 1 0 [] [] 1 1 0 0). split; [reflexivity|].
  set (c := mk 1 0 [] [] 1 1 0 0).
  assert (HP : 1 <= size c <= INT_MAX) by (unfold INT_MAX; simpl; lia).
  destruct (work_range c numTasks 0 HN HP ltac:(simpl; lia)) as [Hh Ht].
  change (on_rank (divideWork c numTasks) 0)
    with (on_rank (divideWork c numTasks) (rank c)) in Hh, Ht.
  rewrite <- (rank_divideWork c numTasks), on_rank_self in Hh, Ht.
  rewrite Hh, Ht. unfold cut. simpl size.
  rewrite Z.mul_0_r, Z.add_0_l, Z.mul_1_r, !Z.div_1_r. auto.
Qed.

Lemma serial_process_gets_all_witness :
  0 <= 7 <= INT_MAX /\
  exists c,
    construct_serial = Ok c /\
    workHead (divideWork c 7) = Some 0 /\
    workTail (divideWork c 7) = Some 7.
Proof.
  assert (H : 0 <= 7 <= INT_MAX) by (unfold INT_MAX; lia).
  split; [exact H|]. exact (serial_process_gets_all 7 H).
Defined.

(** [workTail] returns an [int]: on one process, a number of tasks from
    2^31 up to 2^32 - 1 comes back as the negative number
    [numTasks - 2^32]. *)
Theorem workTail_narrows (c : t) (numTasks : Z) :
  size c = 1 -> rank c = 0 ->
  2 ^ 31 <= numTasks < 2 ^ 32 ->
  workHead (divideWork c numTasks) = Some 0 /\
  workTail (divideWork c numTasks) = Some (numTasks - 2 ^ 32) /\
  numTasks - 2 ^ 32 < 0.
Proof.
  intros Hs Hrk HN.
  assert (HP : 1 <= size c <= INT_MAX) by (unfold INT_MAX; lia).
  assert (Hb : numTasks * size c <= SIZE_MAX)
    by (unfold SIZE_MAX; rewrite Hs; lia).
  destruct (work_range_narrowed c numTasks 0 ltac:(lia) HP Hb ltac:(lia))
    as [Hh Ht].
  rewrite <- Hrk in Hh at 1. rewrite <- Hrk in Ht at 1.
  rewrite <- (rank_divideWork c numTasks), on_rank_self in Hh, Ht.
  rewrite Hh, Ht. unfold cut. rewrite Hs.
  rewrite Z.mul_0_r, Z.add_0_l, Z.mul_1_r, !Z.div_1_r.
  split; [reflexivity|]. split; [|lia].
  f_equal. unfold to_int.
  replace (numTasks + 2 ^ 31)
    with (numTasks - 2 ^ 31 + 1 * 2 ^ 32) by lia.
  rewrite Z_mod_plus_full, Z.mod_small by lia. lia.
Qed.

Lemma workTail_narrows_witness :
  let c := mk 1 0 [] [] 1 1 0 0 in
  (size c = 1 /\ rank c = 0 /\ 2 ^ 31 <= 3000000000 < 2 ^ 32) /\
  workHead (divideWork c 3000000000) = Some 0 /\
  workTail (divideWork c 3000000000) = Some (3000000000 - 2 ^ 32) /\
  3000000000 - 2 ^ 32 < 0.
Proof.
  assert (H1 : size (mk 1 0 [] [] 1 1 0 0) = 1) by reflexivity.
  assert (H2 : rank (mk 1 0 [] [] 1 1 0 0) = 0) by reflexivity.
  assert (H3 : 2 ^ 31 <= 3000000000 < 2 ^ 32) by lia.
  split; [auto|].
  exact (workTail_narrows (mk 1 0 [] [] 1 1 0 0) 3000000000 H1 H2 H3).
Defined.

End MPIcontrollerMore.

(** ** More on the matrix wrapper *)

Module SMatrixMore.

Import SMatrix SMatrixFacts.

Lemma prod_complex_modes_agree_witness :
  (forall a b a' b' t1 t2,
     id a = id a' -> id b = id b' ->
     id (Dense.pmat_prod a b t1 t2) = id (Dense.mat_prod a' b' t1 t2)) /\
  let a := [[1; 2]; [3; 4]] in
  let b := [[0; 1]; [1; 0]] in
  id (pmat (prod_complex Dense.mat_prod Dense.pmat_prod
              (Dense.distributed a) (Dense.distributed b) "T" "N")) =
  id (mat (prod_complex Dense.mat_prod Dense.pmat_prod
             (Dense.serial a) (Dense.serial b) "T" "N")).
Proof.
  assert (Hk : forall a b a' b' t1 t2,
             id a = id a' -> id b = id b' ->
             id (Dense.pmat_prod a b t1 t2)
             = id (Dense.mat_prod a' b' t1 t2)).
  { intros a b a' b' t1 t2 Ha Hb. unfold id in *. subst. reflexivity. }
  split; [exact Hk|].
  exact (prod_complex_modes_agree Dense.mat_prod Dense.pmat_prod id id Hk
           (Dense.distributed [[1; 2]; [3; 4]])
           (Dense.distributed [[0; 1]; [1; 0]])
           (Dense.serial [[1; 2]; [3; 4]])
           (Dense.serial [[0; 1]; [1; 0]])
           "T"%char "N"%char eq_refl eq_refl eq_refl eq_refl).
Defined.

Section Mode.

Context {DM DP CM CP : Type}.
Variable dmat_prod : DM -> DM -> ascii -> ascii -> DM.
Variable dpmat_prod1 : DP -> DP -> DP.
Variable cmat_prod : CM -> CM -> ascii -> ascii -> CM.
Variable cpmat_prod : CP -> CP -> ascii -> ascii -> CP.

(** [prod] takes its mode from the receiver alone.  The flag of the
    argument is never read: only the argument's store of the receiver's
    mode enters the product, and the result keeps the receiver's flag and
    the receiver's other store. *)
Theorem prod_mode_from_receiver :
  (forall (this that that' : Matrix CM CP) t1 t2,
     (if isDistributed this then pmat that = pmat that'
      else mat that = mat that') ->
     prod_complex cmat_prod cpmat_prod this that t1 t2
     = prod_complex cmat_prod cpmat_prod this that' t1 t2 /\
     isDistributed (prod_complex cmat_prod cpmat_prod this that t1 t2)
     = isDistributed this /\
     (if isDistributed this
      then mat (prod_complex cmat_prod cpmat_prod this that t1 t2) = mat this
      else pmat (prod_complex cmat_prod cpmat_prod this that t1 t2)
           = pmat this)) /\
  (forall (this that that' : Matrix DM DP) t1 t2,
     (if isDistributed this then pmat that = pmat that'
      else mat that = mat that') ->
     prod_double dmat_prod dpmat_prod1 this that t1 t2
     = prod_double dmat_prod dpmat_prod1 this that' t1 t2 /\
     isDistributed (prod_double dmat_prod dpmat_prod1 this that t1 t2)
     = isDistributed this /\
     (if isDistributed this
      then mat (prod_double dmat_prod dpmat_prod1 this that t1 t2) = mat this
      else pmat (prod_double dmat_prod dpmat_prod1 this that t1 t2)
           = pmat this)).
Proof.
  split; intros this that that' t1 t2 Hstore.
  - unfold prod_complex.
    destruct (isDistributed this) eqn:Hd; rewrite Hstore;
      repeat split; simpl; auto.
  - unfold prod_double.
    destruct (isDistributed this) eqn:Hd; rewrite Hstore;
      repeat split; simpl; auto.
Qed.

End Mode.

Lemma prod_mode_from_receiver_witness :
  let this := Dense.distributed [[1; 2]; [3; 4]] in
  let that := Dense.distributed [[0; 1]; [1; 0]] in
  let that' := mkMatrix false [[9]] [[0; 1]; [1; 0]] in
  (if isDistributed this then pmat that = pmat that'
   else mat that = mat that') /\
  prod_complex Dense.mat_prod Dense.pmat_prod this that "N" "N"
  = prod_complex Dense.mat_prod Dense.pmat_prod this that' "N" "N".
Proof.
  assert (H : if isDistributed (Dense.distributed [[1; 2]; [3; 4]])
              then pmat (Dense.distributed [[0; 1]; [1; 0]])
                   = pmat (mkMatrix false [[9]] [[0; 1]; [1; 0]])
              else mat (Dense.distributed [[0; 1]; [1; 0]])
                   = mat (mkMatrix false [[9]] [[0; 1]; [1; 0]]))
    by reflexivity.
  split; [exact H|].
  exact (proj1 (proj1 (prod_mode_from_receiver
                         Dense.mat_prod Dense.pmat_prod1
                         Dense.mat_prod Dense.pmat_prod)
                  (Dense.distributed [[1; 2]; [3; 4]])
                  (Dense.distributed [[0; 1]; [1; 0]])
                  (mkMatrix false [[9]] [[0; 1]; [1; 0]])
                  "N"%char "N"%char H)).
Defined.

End SMatrixMore.

(** ** More on the driver *)

Module PhononTransportAppMore.

Import PhononTransportApp PhononTransportAppCount PhononTransportAppFacts.

Lemma count_app {K} (f : event K -> bool) (t1 t2 : list (event K)) :
  count f (t1 ++ t2) = (count f t1 + count f t2)%nat.
Proof.
  induction t1 as [|e t1 IH]; simpl; [reflexivity|]. rewrite IH. lia.
Qed.

Lemma flag_true (name : string) (l : list string) :
  In name l -> existsb (fun s => String.eqb s name) l = true.
Proof.
  intros Hin. apply existsb_exists. exists name.
  split; [exact Hin | apply String.eqb_refl].
Qed.

Lemma flag_false (name : string) (l : list string) :
  ~ In name l -> existsb (fun s => String.eqb s name) l = false.
Proof.
  intros Hnin. apply not_true_is_false. intros Hex.
  apply existsb_exists in Hex. destruct Hex as (s & Hin & Heq).
  apply String.eqb_eq in Heq. subst. exact (Hnin Hin).
Qed.

(** A test on the passes [0 .. n-1] fails on all of them, or there is a
    first pass that meets it. *)
Lemma first_true (f : nat -> bool) (n : nat) :
  (forall l, (l < n)%nat -> f l = false) \/
  (exists i, (i < n)%nat /\ (forall l, (l < i)%nat -> f l = false) /\
             f i = true).
Proof.
  induction n as [|n [Hall | (i & Hi & Hno & Hyes)]].
  - left. intros l Hl. lia.
  - destruct (f n) eqn:Hn.
    + right. exists n. split; [lia|]. split; [exact Hall | exact Hn].
    + left. intros l Hl.
      destruct (decide (l = n)) as [-> | Hne]; [exact Hn | apply Hall; lia].
  - right. exists i. split; [lia|]. split; [exact Hno | exact Hyes].
Qed.

(** The flags depend only on which names occur in [solverBTE], not on
    their order or on how often they are repeated. *)
Theorem solver_flags_by_membership (l l' : list string) :
  (forall s, In s l <-> In s l') -> solver_flags l = solver_flags l'.
Proof.
  intros Hmem. rewrite !solver_flags_existsb.
  assert (Hex : forall name,
             existsb (fun s => String.eqb s name) l
             = existsb (fun s => String.eqb s name) l').
  { intros name.
    destruct (existsb (fun s => String.eqb s name) l') eqn:Hl'.
    - apply existsb_exists in Hl'. destruct Hl' as (s & Hin & Heq).
      apply existsb_exists. exists s. split; [apply Hmem, Hin | exact Heq].
    - apply not_true_is_false. intros Hl.
      apply existsb_exists in Hl. destruct Hl as (s & Hin & Heq).
      assert (Ht : existsb (fun s => String.eqb s name) l' = true).
      { apply existsb_exists. exists s.
        split; [apply Hmem, Hin | exact Heq]. }
      congruence. }
  rewrite !Hex. reflexivity.
Qed.

Lemma solver_flags_by_membership_witness :
  let l := ["relaxons"; "iterative"; "relaxons"]%string in
  let l' := ["iterative"; "relaxons"]%string in
  (forall s, In s l <-> In s l') /\ solver_flags l = solver_flags l'.
Proof.
  assert (H : forall s,
             In s ["relaxons"; "iterative"; "relaxons"]%string <->
             In s ["iterative"; "relaxons"]%string)
    by (intros s; simpl; tauto).
  split; [exact H|].
  exact (solver_flags_by_membership
           ["relaxons"; "iterative"; "relaxons"]%string
           ["iterative"; "relaxons"]%string H).
Defined.

Section Run.

Context {V K Sc Mx : Type} {W : Collaborators V K Sc Mx}.
Variable context : Context Sc.

Local Abbreviation maxIter := (getMaxIterationsBTE context).
Local Abbreviation threshold := (getConvergenceThresholdBTE context).

(** *** Validation *)

Lemma validate_ok doRelaxons numCalcs :
  (doRelaxons = true -> getScatteringMatrixInMemory context = true) ->
  (getScatteringMatrixInMemory context = true -> numCalcs = 1) ->
  validate (K := K) context doRelaxons numCalcs = ([], Ok tt).
Proof.
  intros Hr Hm. unfold validate.
  destruct (getScatteringMatrixInMemory context) eqn:Hmem.
  - rewrite (Hm eq_refl). destruct doRelaxons; reflexivity.
  - destruct doRelaxons; [discriminate (Hr eq_refl) | reflexivity].
Qed.

(** What is left of [run] once the RTA stage has run to its end and
    validation has passed. *)
Lemma run_after_validation numCalcs :
  assembles context numCalcs ->
  validate (K := K) context (snd (solver_flags (getSolverBTE context)))
    numCalcs = ([], Ok tt) ->
  run context numCalcs =
  let '(doIterative, doVariational, doRelaxons) :=
    solver_flags (getSolverBTE context) in
  let rest : M K unit :=
    phTCond ← (if doIterative
               then iterative_solver context popRTA_of kRTA_of
               else ret kRTA_of);
    phTCond ← (if doVariational
               then variational_solver context popRTA_of phTCond
               else ret phTCond);
    phTCond ← (if doRelaxons then relaxons_solver context phTCond
               else ret phTCond);
    emit Barrier in
  (rta_events ++ Barrier :: fst rest, snd rest).
Proof.
  intros Ha Hv. unfold run. rewrite (rta_stage_eq context numCalcs Ha), bind_ok.
  destruct (solver_flags (getSolverBTE context)) as [[doI doV] doR].
  cbn [snd] in Hv. cbn beta iota zeta. rewrite Hv, bind_ok.
  cbn [fst snd app]. rewrite bind_emit. reflexivity.
Qed.

(** The run gets past validation, to the barrier that follows it, exactly
    when the constructor of the scattering matrix and [setup()] return and
    the configuration is consistent: relaxons only with the matrix in
    memory, and the matrix in memory only with exactly one calculation
    (zero calculations are rejected as well). *)
Theorem run_passes_validation_iff (numCalcs : Z) :
  (exists tr r, run context numCalcs = (rta_events ++ Barrier :: tr, r)) <->
  (assembles context numCalcs /\
   (In "relaxons"%string (getSolverBTE context) ->
    getScatteringMatrixInMemory context = true) /\
   (getScatteringMatrixInMemory context = true -> numCalcs = 1)).
Proof.
  split.
  - intros (tr & r & Hrun).
    assert (Hshort : forall t msg,
               (length t <= 6)%nat ->
               run context numCalcs <> (t, Fatal msg)).
    { intros t msg Hlen Hf. rewrite Hf in Hrun.
      apply (f_equal fst) in Hrun. cbn [fst] in Hrun.
      apply (f_equal length) in Hrun.
      rewrite length_app in Hrun. simpl in Hrun. lia. }
    assert (Ha : assembles context numCalcs).
    { destruct (rta_stage_cases context numCalcs)
        as [[Ha _] | [(m & _ & Hst) | (m & _ & _ & Hst)]]; [exact Ha | |];
        exfalso;
        apply (Hshort _ m) with (2 := run_stage_raises context _ _ _ Hst);
        simpl; lia. }
    assert (Hstop : forall msg,
               run context numCalcs <> (rta_events, Fatal msg)).
    { intros msg Hf. rewrite Hf in Hrun.
      apply (f_equal fst) in Hrun. cbn [fst] in Hrun.
      rewrite <- (app_nil_r rta_events) in Hrun at 1.
      apply app_inv_head in Hrun. discriminate Hrun. }
    split; [exact Ha|]. split.
    + intros Hrel.
      destruct (getScatteringMatrixInMemory context) eqn:Hmem;
        [reflexivity|].
      exfalso. apply (Hstop relaxons_msg).
      apply run_validation_fails; [exact Ha|]. apply doRelaxons_iff in Hrel.
      rewrite Hrel. apply validate_relaxons_not_in_memory. exact Hmem.
    + intros Hmem.
      destruct (Z.eq_dec numCalcs 1) as [Heq | Hne]; [exact Heq|].
      exfalso. apply (Hstop in_memory_msg).
      apply run_validation_fails; [exact Ha|].
      apply validate_in_memory_many; assumption.
  - intros (Ha & Hrel & Hmem).
    rewrite (run_after_validation numCalcs Ha).
    + destruct (solver_flags (getSolverBTE context)) as [[doI doV] doR].
      eexists _, _. reflexivity.
    + apply validate_ok; [|exact Hmem].
      intros Hflag. apply Hrel, doRelaxons_iff, Hflag.
Qed.

(** A run that asks for none of the three solvers (an empty list, or
    names that are not recognised) does the RTA stage and the two
    barriers, and ends normally. *)
Theorem run_without_solver (numCalcs : Z) :
  assembles context numCalcs ->
  ~ In "iterative"%string (getSolverBTE context) ->
  ~ In "variational"%string (getSolverBTE context) ->
  ~ In "relaxons"%string (getSolverBTE context) ->
  (getScatteringMatrixInMemory context = true -> numCalcs = 1) ->
  run context numCalcs = (rta_events ++ [Barrier; Barrier], Ok tt).
Proof.
  intros Ha Hi Hv Hr Hmem.
  assert (Hflags : solver_flags (getSolverBTE context)
                   = (false, false, false)).
  { rewrite solver_flags_existsb.
    rewrite (flag_false _ _ Hi), (flag_false _ _ Hv), (flag_false _ _ Hr).
    reflexivity. }
  rewrite (run_after_validation numCalcs Ha).
  - rewrite Hflags. reflexivity.
  - rewrite Hflags. apply validate_ok; [discriminate | exact Hmem].
Qed.

(** A run that asks for relaxons alone, with the matrix in memory and one
    calculation: after the RTA stage, [a2Omega] once, then [diagonalize]
    once, then the outputs; the viscosity is computed from the relaxons
    only when symmetries are not used. *)
Theorem run_relaxons_only :
  assembles context 1 ->
  In "relaxons"%string (getSolverBTE context) ->
  ~ In "iterative"%string (getSolverBTE context) ->
  ~ In "variational"%string (getSolverBTE context) ->
  getScatteringMatrixInMemory context = true ->
  run context 1 =
    (rta_events ++
     [Barrier; A2Omega; Diagonalize;
      TCondPrint (calcFromRelaxons kRTA_of);
      TCondOutputJSON (calcFromRelaxons kRTA_of)
        "relaxons_phonon_thermal_cond.json";
      ScatteringOutputJSON "relaxons_relaxation_times.json"] ++
     (if getUseSymmetries context then []
      else [ViscosityCalcFromRelaxons; ViscosityPrint;
            ViscosityOutputJSON "relaxons_phonon_viscosity.json"]) ++
     [Barrier],
     Ok tt).
Proof.
  intros Ha Hr Hi Hv Hmem.
  assert (Hflags : solver_flags (getSolverBTE context)
                   = (false, false, true)).
  { rewrite solver_flags_existsb.
    rewrite (flag_false _ _ Hi), (flag_false _ _ Hv), (flag_true _ _ Hr).
    reflexivity. }
  rewrite (run_after_validation 1 Ha).
  - rewrite Hflags. unfold relaxons_solver.
    destruct (getUseSymmetries context); reflexivity.
  - rewrite Hflags. apply validate_ok; [auto | reflexivity].
Qed.

(** *** The iterative solver *)

(** The loop writes no conductivity file; within at most [n] passes it
    applies the off-diagonal part at most [n] times. *)
Lemma omini_loop_counts n : forall iter fRTA d th fOld kOld k,
  count is_tcond_output
    (fst (omini_loop context n iter fRTA d th fOld kOld k)) = 0%nat /\
  (count is_offDiagonalDot
     (fst (omini_loop context n iter fRTA d th fOld kOld k)) <= n)%nat.
Proof.
  induction n as [|n IH]; intros iter fRTA d th fOld kOld k.
  - simpl. auto.
  - cbn [omini_loop]. rewrite bind_emit.
    destruct (omini_step fRTA d fOld k) as [fNext k'].
    rewrite bind_emit. cbn [fst snd].
    destruct (ltb _ th).
    + simpl. split; [reflexivity | lia].
    + destruct (iter =? maxIter - 1).
      * simpl. split; [reflexivity | lia].
      * destruct (IH (iter + 1) fRTA d th fNext k' k') as [H0 Hle].
        simpl. rewrite H0. split; [reflexivity | lia].
Qed.

(** With a budget of at least one pass, the iterative solver ends in one
    of two ways.  Either no pass within the budget meets the test: then it
    has run all the passes, ends in the convergence error and has written
    no conductivity file.  Or there is a first pass [i] within the budget
    whose conductivity [kOut] differs from the conductivity [kPrev] of the
    pass before it (of the RTA, for the first pass) by less than the
    threshold: then it has run passes [0..i], and prints, writes and
    returns [kOut]. *)
Theorem iterative_solver_outcome (popRTA : V) (k : K) :
  1 <= maxIter ->
  ((forall l, (l < Z.to_nat maxIter)%nat ->
      omini_converged_at threshold popRTA k l = false) /\
   iterative_solver context popRTA k =
     (Diagonal :: passes popRTA k 0 (Z.to_nat maxIter),
      Fatal convergence_msg) /\
   count is_tcond_output
     (Diagonal :: passes popRTA k 0 (Z.to_nat maxIter)) = 0%nat) \/
  (exists i,
     (i < Z.to_nat maxIter)%nat /\
     (forall l, (l < i)%nat ->
        omini_converged_at threshold popRTA k l = false) /\
     let kPrev := snd (omini_iterate popRTA k i) in
     let kOut := snd (omini_iterate popRTA k (S i)) in
     ltb (getNormMaxCoeff (ksub kOut kPrev)) threshold = true /\
     iterative_solver context popRTA k =
       (Diagonal :: passes popRTA k 0 (S i) ++
          [TCondPrint kOut;
           TCondOutputJSON kOut "omini_phonon_thermal_cond.json"],
        Ok kOut)).
Proof.
  intros Hb. rewrite iterative_solver_eq. cbn zeta.
  destruct (first_true (omini_converged_at threshold popRTA k)
              (Z.to_nat maxIter)) as [Hall | (i & Hi & Hno & Hyes)].
  - left. split; [exact Hall|].
    pose proof (omini_loop_counts (Z.to_nat maxIter) 0
                  (population2Canonical popRTA) diagonal threshold
                  (population2Canonical popRTA) k k) as [Hc _].
    rewrite (omini_loop_exhausted context popRTA k Hb Hall) in Hc |- *.
    split; [reflexivity|]. simpl. exact Hc.
  - right. exists i. split; [exact Hi|]. split; [exact Hno|].
    cbn zeta. split; [exact Hyes|].
    rewrite (omini_loop_converges context popRTA k i ltac:(lia) Hno Hyes).
    reflexivity.
Qed.

(** Whatever the outcome, the iterative solver applies the off-diagonal
    part of the scattering matrix at most [maxIterationsBTE] times. *)
Theorem iterative_solver_work_bound (popRTA : V) (k : K) :
  (count is_offDiagonalDot (fst (iterative_solver context popRTA k))
   <= Z.to_nat maxIter)%nat.
Proof.
  rewrite iterative_solver_eq. cbn zeta.
  pose proof (omini_loop_counts (Z.to_nat maxIter) 0
                (population2Canonical popRTA) diagonal threshold
                (population2Canonical popRTA) k k) as [_ Hle].
  destruct (snd (omini_loop context _ _ _ _ _ _ _ _)); cbn [fst].
  - simpl. rewrite count_app. simpl. lia.
  - simpl. exact Hle.
Qed.

End Run.

Lemma iterative_solver_outcome_witness :
  1 <= getMaxIterationsBTE Synthetic.ctx_iterative /\
  (((forall l, (l < Z.to_nat (getMaxIterationsBTE Synthetic.ctx_iterative))%nat ->
       omini_converged_at (W := Synthetic.system (1 # 2))
         (getConvergenceThresholdBTE Synthetic.ctx_iterative) 1%Q 1%Q l
       = false) /\
    Synthetic.iterative_solver (1 # 2) Synthetic.ctx_iterative 1%Q 1%Q =
      (Diagonal :: passes (W := Synthetic.system (1 # 2)) 1%Q 1%Q 0
                     (Z.to_nat (getMaxIterationsBTE Synthetic.ctx_iterative)),
       Fatal convergence_msg) /\
    count is_tcond_output
      (Diagonal :: passes (W := Synthetic.system (1 # 2)) 1%Q 1%Q 0
                     (Z.to_nat (getMaxIterationsBTE Synthetic.ctx_iterative)))
    = 0%nat) \/
   (exists i,
      (i < Z.to_nat (getMaxIterationsBTE Synthetic.ctx_iterative))%nat /\
      (forall l, (l < i)%nat ->
         omini_converged_at (W := Synthetic.system (1 # 2))
           (getConvergenceThresholdBTE Synthetic.ctx_iterative) 1%Q 1%Q l
         = false) /\
      let kPrev :=
        snd (omini_iterate (W := Synthetic.system (1 # 2)) 1%Q 1%Q i) in
      let kOut :=
        snd (omini_iterate (W := Synthetic.system (1 # 2)) 1%Q 1%Q (S i)) in
      Synthetic.Qltb (Qabs (kOut - kPrev)) (1 # 5) = true /\
      Synthetic.iterative_solver (1 # 2) Synthetic.ctx_iterative 1%Q 1%Q =
        (Diagonal :: passes (W := Synthetic.system (1 # 2)) 1%Q 1%Q 0 (S i) ++
           [TCondPrint kOut;
            TCondOutputJSON kOut "omini_phonon_thermal_cond.json"],
         Ok kOut))).
Proof.
  assert (H : 1 <= getMaxIterationsBTE Synthetic.ctx_iterative)
    by (simpl; lia).
  split; [exact H|].
  exact (iterative_solver_outcome (W := Synthetic.system (1 # 2))
           Synthetic.ctx_iterative 1%Q 1%Q H).
Defined.

Lemma run_without_solver_witness :
  let context := mkContext ["Iterative"%string] false 5 (1 # 5)%Q false in
  (assembles (W := Synthetic.system (1 # 2)) context 3 /\
   ~ In "iterative"%string (getSolverBTE context) /\
   ~ In "variational"%string (getSolverBTE context) /\
   ~ In "relaxons"%string (getSolverBTE context) /\
   (getScatteringMatrixInMemory context = true -> 3 = 1)) /\
  Synthetic.run (1 # 2) context 3
    = (rta_events (W := Synthetic.system (1 # 2)) ++ [Barrier; Barrier],
       Ok tt).
Proof.
  set (context := mkContext ["Iterative"%string] false 5 (1 # 5)%Q false).
  assert (H0 : assembles (W := Synthetic.system (1 # 2)) context 3)
    by (split; reflexivity).
  assert (H1 : ~ In "iterative"%string (getSolverBTE context))
    by (simpl; intros [H | []]; discriminate H).
  assert (H2 : ~ In "variational"%string (getSolverBTE context))
    by (simpl; intros [H | []]; discriminate H).
  assert (H3 : ~ In "relaxons"%string (getSolverBTE context))
    by (simpl; intros [H | []]; discriminate H).
  assert (H4 : getScatteringMatrixInMemory context = true -> 3 = 1)
    by (simpl; discriminate).
  split; [auto|].
  exact (run_without_solver (W := Synthetic.system (1 # 2))
           context 3 H0 H1 H2 H3 H4).
Defined.

Lemma run_relaxons_only_witness :
  let context := Synthetic.ctx_relaxons_in_memory in
  (assembles (W := Synthetic.system (1 # 2)) context 1 /\
   In "relaxons"%string (getSolverBTE context) /\
   ~ In "iterative"%string (getSolverBTE context) /\
   ~ In "variational"%string (getSolverBTE context) /\
   getScatteringMatrixInMemory context = true) /\
  snd (Synthetic.run (1 # 2) context 1) = Ok tt.
Proof.
  set (context := Synthetic.ctx_relaxons_in_memory).
  assert (H0 : assembles (W := Synthetic.system (1 # 2)) context 1)
    by (split; reflexivity).
  assert (H1 : In "relaxons"%string (getSolverBTE context))
    by (left; reflexivity).
  assert (H2 : ~ In "iterative"%string (getSolverBTE context))
    by (simpl; intros [H | []]; discriminate H).
  assert (H3 : ~ In "variational"%string (getSolverBTE context))
    by (simpl; intros [H | []]; discriminate H).
  assert (H4 : getScatteringMatrixInMemory context = true) by reflexivity.
  split; [auto|].
  unfold Synthetic.run.
  rewrite (run_relaxons_only (W := Synthetic.system (1 # 2))
             context H0 H1 H2 H3 H4).
  reflexivity.
Defined.

Lemma iterative_solver_exhausted_witness :
  let context := mkContext ["iterative"%string] false 5 0%Q false in
  (1 <= getMaxIterationsBTE context /\
   forall l, (l < Z.to_nat (getMaxIterationsBTE context))%nat ->
     omini_converged_at (W := Synthetic.system (1 # 2))
       (getConvergenceThresholdBTE context) 1%Q 1%Q l = false) /\
  Synthetic.iterative_solver (1 # 2) context 1%Q 1%Q =
    (Diagonal :: passes (W := Synthetic.system (1 # 2)) 1%Q 1%Q 0
                   (Z.to_nat (getMaxIterationsBTE context)),
     Fatal convergence_msg).
Proof.
  set (context := mkContext ["iterative"%string] false 5 0%Q false).
  assert (H1 : 1 <= getMaxIterationsBTE context) by (simpl; lia).
  assert (H2 : forall l, (l < Z.to_nat (getMaxIterationsBTE context))%nat ->
             omini_converged_at (W := Synthetic.system (1 # 2))
               (getConvergenceThresholdBTE context) 1%Q 1%Q l = false).
  { intros l Hl. simpl in Hl.
    destruct l as [|[|[|[|[|l]]]]]; try reflexivity.
    exfalso. change (Z.to_nat 5) with 5%nat in Hl. lia. }
  split; [auto|].
  exact (iterative_solver_exhausted (W := Synthetic.system (1 # 2))
           context 1%Q 1%Q H1 H2).
Defined.

End PhononTransportAppMore.

(** ** More on the variational solver *)

Module VariationalMore.

Import PhononTransportApp PhononTransportAppCount PhononTransportAppFacts.

Section Solver.

Context {V K Sc Mx : Type} {W : Collaborators V K Sc Mx}.
Variable context : Context Sc.
Variable popRTA : V.
Variable kRTA : K.

Local Abbreviation maxIter := (getMaxIterationsBTE context).
Local Abbreviation threshold := (getConvergenceThresholdBTE context).

Lemma count_snoc2 (f : event K -> bool) (t : list (event K)) e1 e2 :
  count f (t ++ [e1; e2])
  = (count f t + ((if f e1 then 1 else 0) + (if f e2 then 1 else 0)))%nat.
Proof.
  induction t as [|e t IH]; simpl; [lia|]. rewrite IH. lia.
Qed.

(** The end of a solver block: print and write what the loop handed
    back, or pass its error on. *)
Lemma finish_eq (loop : M K K) (file : string) :
  (phTCond ← loop;
   emit (TCondPrint phTCond) ;;
   emit (TCondOutputJSON phTCond file) ;;
   ret phTCond)
  = match snd loop with
    | Ok k' =>
        (fst loop ++ [TCondPrint k'; TCondOutputJSON k' file], Ok k')
    | Fatal msg => (fst loop, Fatal msg)
    end.
Proof. destruct loop as [t [k' | msg]]; reflexivity. Qed.

Lemma variational_loop_counts n :
  forall iter d ds th fOld gOld hOld tOld kOld k,
  count is_tcond_output
    (fst (variational_loop context n iter d ds th fOld gOld hOld tOld
            kOld k)) = 0%nat /\
  count is_dot
    (fst (variational_loop context n iter d ds th fOld gOld hOld tOld
            kOld k)) = 0%nat /\
  (count is_dotMany
     (fst (variational_loop context n iter d ds th fOld gOld hOld tOld
             kOld k)) <= n)%nat.
Proof.
  induction n as [|n IH];
    intros iter d ds th fOld gOld hOld tOld kOld k.
  - simpl. auto.
  - cbn [variational_loop]. rewrite !bind_emit. cbn [fst snd].
    match goal with
    | |- context [ltb ?x th] => destruct (ltb x th)
    end.
    + simpl. repeat split; try reflexivity; lia.
    + destruct (iter =? maxIter - 1).
      * simpl. repeat split; try reflexivity; lia.
      * match goal with
        | |- context [variational_loop ?c n ?i ?a1 ?a2 ?a3 ?a4 ?a5 ?a6
                        ?a7 ?a8 ?a9] =>
            destruct (IH i a1 a2 a3 a4 a5 a6 a7 a8 a9) as (H0 & H1 & Hle);
            set (t := fst (variational_loop c n i a1 a2 a3 a4 a5 a6 a7 a8
                             a9)) in *;
            clearbody t
        end.
        simpl. rewrite H0, H1. repeat split; try reflexivity; lia.
Qed.

(** One pass of the loop, entered with the carried state [s]. *)
Lemma variational_loop_from_S n iter (s : cg_state) :
  variational_loop_from context (S n) iter s =
  let s' := variational_step s in
  let rest : M K K :=
    if ltb (getNormMaxCoeff (ksub (snd s') (snd s))) threshold
    then ret (snd s')
    else if iter =? maxIter - 1
         then Error convergence_msg
         else variational_loop_from context n (iter + 1) s' in
  (DotMany :: TCondPrintIter (snd s') iter :: fst rest, snd rest).
Proof.
  destruct s as [[[[fOld gOld] hOld] tOld] k].
  unfold variational_loop_from, variational_step.
  cbn [variational_loop]. rewrite !bind_emit. cbn [fst snd].
  reflexivity.
Qed.

Local Abbreviation vit := (variational_iterate popRTA kRTA).
Local Abbreviation vconverged_at :=
  (variational_converged_at threshold popRTA kRTA).
Local Abbreviation vpasses := (variational_passes popRTA kRTA).

(** From the state after [j] passes, with [m] more passes that fail the
    test and then one that meets it, the loop breaks with the conductivity
    of the state after [j+m+1] passes. *)
Lemma variational_loop_converges_from m : forall j n,
  (m < n)%nat ->
  Z.of_nat (j + m) < maxIter ->
  (forall l, (j <= l < j + m)%nat -> vconverged_at l = false) ->
  vconverged_at (j + m) = true ->
  variational_loop_from context n (Z.of_nat j) (vit j)
  = (vpasses j (S m), Ok (snd (vit (S (j + m))))).
Proof.
  induction m as [|m IH]; intros j n Hn Hlt Hno Hyes;
    (destruct n as [|n]; [lia|]);
    rewrite variational_loop_from_S; cbn zeta;
    change (variational_step (vit j)) with (vit (S j)).
  - rewrite Nat.add_0_r in Hyes. unfold variational_converged_at in Hyes.
    rewrite Hyes. rewrite Nat.add_0_r. reflexivity.
  - pose proof (Hno j ltac:(lia)) as Hj.
    unfold variational_converged_at in Hj. rewrite Hj.
    replace (Z.of_nat j =? maxIter - 1) with false
      by (symmetry; apply Z.eqb_neq; lia).
    replace (Z.of_nat j + 1) with (Z.of_nat (S j)) by lia.
    rewrite (IH (S j) n); try lia.
    + replace (S j + m)%nat with (j + S m)%nat by lia. reflexivity.
    + intros l Hl. apply Hno. lia.
    + replace (S j + m)%nat with (j + S m)%nat by lia. exact Hyes.
Qed.

(** From the state after [j] passes, if none of the [n >= 1] passes left
    in the budget meets the test, the last of them raises the convergence
    error. *)
Lemma variational_loop_exhausted_from n : forall j,
  (1 <= n)%nat ->
  Z.of_nat (j + n) = maxIter ->
  (forall l, (j <= l < j + n)%nat -> vconverged_at l = false) ->
  variational_loop_from context n (Z.of_nat j) (vit j)
  = (vpasses j n, Fatal convergence_msg).
Proof.
  induction n as [|n IH]; intros j Hn Hend Hno; [lia|].
  rewrite variational_loop_from_S; cbn zeta.
  change (variational_step (vit j)) with (vit (S j)).
  pose proof (Hno j ltac:(lia)) as Hj.
  unfold variational_converged_at in Hj. rewrite Hj.
  destruct (Z.eqb_spec (Z.of_nat j) (maxIter - 1)) as [Heq | Hne].
  - assert (n = 0)%nat as -> by lia. reflexivity.
  - replace (Z.of_nat j + 1) with (Z.of_nat (S j)) by lia.
    rewrite (IH (S j)); try lia.
    + reflexivity.
    + intros l Hl. apply Hno. lia.
Qed.

(** The block of the variational solver around the loop. *)
Lemma variational_solver_eq :
  variational_solver context popRTA kRTA =
  let loop :=
    variational_loop_from context (Z.to_nat maxIter) 0 (vit 0) in
  match snd loop with
  | Ok k' =>
      ([Diagonal; Diagonal; Dot; Dot] ++ fst loop ++
         [TCondPrint k';
          TCondOutputJSON k' "variational_phonon_thermal_cond.json"],
       Ok k')
  | Fatal msg => ([Diagonal; Diagonal; Dot; Dot] ++ fst loop, Fatal msg)
  end.
Proof.
  unfold variational_solver.
  rewrite !bind_emit, finish_eq. cbn zeta.
  unfold variational_loop_from, variational_iterate, variational_init.
  cbn zeta.
  match goal with
  | |- context [variational_loop ?c ?n ?i ?a1 ?a2 ?a3 ?a4 ?a5 ?a6 ?a7
                  ?a8 ?a9] =>
      destruct (variational_loop c n i a1 a2 a3 a4 a5 a6 a7 a8 a9)
        as [t [k' | msg]]
  end; reflexivity.
Qed.

(** With a budget of at least one pass, the variational solver ends in one
    of two ways.  Either no pass within the budget meets the test: then it
    has run all the passes, ends in the convergence error and has written
    no conductivity file.  Or there is a first pass [i] within the budget
    whose conductivity [kOut] differs from the conductivity [kPrev] it
    started from (that of the pass before, or the one the solver was
    given) by less than the threshold: then it has run passes [0..i], and
    prints, writes and returns [kOut]. *)
Theorem variational_solver_outcome :
  1 <= maxIter ->
  ((forall l, (l < Z.to_nat maxIter)%nat -> vconverged_at l = false) /\
   variational_solver context popRTA kRTA =
     ([Diagonal; Diagonal; Dot; Dot] ++ vpasses 0 (Z.to_nat maxIter),
      Fatal convergence_msg) /\
   count is_tcond_output
     ([Diagonal; Diagonal; Dot; Dot] ++ vpasses 0 (Z.to_nat maxIter))
   = 0%nat) \/
  (exists i,
     (i < Z.to_nat maxIter)%nat /\
     (forall l, (l < i)%nat -> vconverged_at l = false) /\
     let kPrev := snd (vit i) in
     let kOut := snd (vit (S i)) in
     ltb (getNormMaxCoeff (ksub kOut kPrev)) threshold = true /\
     variational_solver context popRTA kRTA =
       ([Diagonal; Diagonal; Dot; Dot] ++ vpasses 0 (S i) ++
          [TCondPrint kOut;
           TCondOutputJSON kOut "variational_phonon_thermal_cond.json"],
        Ok kOut)).
Proof.
  intros Hb. rewrite variational_solver_eq. cbn zeta.
  destruct (PhononTransportAppMore.first_true vconverged_at
              (Z.to_nat maxIter)) as [Hall | (i & Hi & Hno & Hyes)].
  - left. split; [exact Hall|].
    assert (Hloop :
      variational_loop_from context (Z.to_nat maxIter) 0 (vit 0)
      = (vpasses 0 (Z.to_nat maxIter), Fatal convergence_msg)).
    { apply (variational_loop_exhausted_from (Z.to_nat maxIter) 0).
      - lia.
      - simpl. lia.
      - intros l Hl. apply Hall. lia. }
    assert (Hc : count is_tcond_output
                   (fst (variational_loop_from context (Z.to_nat maxIter) 0
                           (vit 0))) = 0%nat).
    { unfold variational_loop_from.
      destruct (vit 0) as [[[[f g] h] t] k0].
      apply variational_loop_counts. }
    rewrite Hloop in Hc |- *. cbn [fst snd] in Hc |- *.
    split; [reflexivity|]. simpl. exact Hc.
  - right. exists i. split; [exact Hi|]. split; [exact Hno|].
    cbn zeta. split; [exact Hyes|].
    assert (Hloop :
      variational_loop_from context (Z.to_nat maxIter) 0 (vit 0)
      = (vpasses 0 (S i), Ok (snd (vit (S i))))).
    { apply (variational_loop_converges_from i 0 (Z.to_nat maxIter)).
      - lia.
      - simpl. lia.
      - intros l Hl. apply Hno. lia.
      - exact Hyes. }
    rewrite Hloop. reflexivity.
Qed.

(** Whatever the outcome, the variational solver applies the scattering
    matrix to a single vector twice, before the loop, and to a batch of
    two vectors at most [maxIterationsBTE] times. *)
Theorem variational_solver_work_bound :
  count is_dot (fst (variational_solver context popRTA kRTA)) = 2%nat /\
  (count is_dotMany (fst (variational_solver context popRTA kRTA))
   <= Z.to_nat maxIter)%nat.
Proof.
  unfold variational_solver.
  rewrite !bind_emit, finish_eq. cbn zeta.
  match goal with
  | |- context [variational_loop ?c ?n ?i ?a1 ?a2 ?a3 ?a4 ?a5 ?a6 ?a7
                  ?a8 ?a9] =>
      pose proof (variational_loop_counts n i a1 a2 a3 a4 a5 a6 a7 a8 a9)
        as (_ & Hd & Hle);
      destruct (snd (variational_loop c n i a1 a2 a3 a4 a5 a6 a7 a8 a9));
      set (t := fst (variational_loop c n i a1 a2 a3 a4 a5 a6 a7 a8 a9))
        in *;
      clearbody t
  end; cbn [fst]; simpl.
  - rewrite !count_snoc2. simpl. rewrite Hd. split; lia.
  - rewrite Hd. split; [reflexivity | exact Hle].
Qed.

End Solver.

Lemma variational_solver_outcome_witness :
  let context := mkContext ["variational"%string] false 5 (1 # 5)%Q false in
  let vit := variational_iterate (W := Synthetic.system (1 # 2)) 1%Q 1%Q in
  let vconverged_at :=
    variational_converged_at (W := Synthetic.system (1 # 2))
      (1 # 5)%Q 1%Q 1%Q in
  let vpasses := variational_passes (W := Synthetic.system (1 # 2)) 1%Q 1%Q in
  1 <= getMaxIterationsBTE context /\
  (((forall l, (l < 5)%nat -> vconverged_at l = false) /\
    variational_solver (W := Synthetic.system (1 # 2)) context 1%Q 1%Q =
      ([Diagonal; Diagonal; Dot; Dot] ++ vpasses 0%nat 5%nat,
       Fatal convergence_msg) /\
    count is_tcond_output
      ([Diagonal; Diagonal; Dot; Dot] ++ vpasses 0%nat 5%nat) = 0%nat) \/
   (exists i,
      (i < 5)%nat /\
      (forall l, (l < i)%nat -> vconverged_at l = false) /\
      let kPrev := snd (vit i) in
      let kOut := snd (vit (S i)) in
      Synthetic.Qltb (Qabs (kOut - kPrev)) (1 # 5) = true /\
      variational_solver (W := Synthetic.system (1 # 2)) context 1%Q 1%Q =
        ([Diagonal; Diagonal; Dot; Dot] ++ vpasses 0%nat (S i) ++
           [TCondPrint kOut;
            TCondOutputJSON kOut "variational_phonon_thermal_cond.json"],
         Ok kOut))).
Proof.
  set (context := mkContext ["variational"%string] false 5 (1 # 5)%Q false).
  assert (H : 1 <= getMaxIterationsBTE context) by (simpl; lia).
  split; [exact H|].
  exact (variational_solver_outcome (W := Synthetic.system (1 # 2))
           context 1%Q 1%Q H).
Defined.

End VariationalMore.

(** ** The band structure on the full grid *)

Module FullBandStructureFacts.

Import FullBandStructure.

Lemma to_long_small z : - 2 ^ 63 <= z <= LONG_MAX -> to_long z = z.
Proof.
  unfold to_long, LONG_MAX. intros H. rewrite Z.mod_small; lia.
Qed.

(** *** State indices *)

(** [getIndex] numbers the states: on the valid pairs of a wavevector and
    a band index it is one-to-one and stays below [getNumStates]. *)
Theorem getIndex_one_to_one (b : t) (ik ib ik' ib' : Z) :
  0 <= numBands b -> 0 <= numPoints b ->
  numBands b * numPoints b <= LONG_MAX ->
  0 <= ik < numPoints b -> 0 <= ib < numBands b ->
  0 <= ik' < numPoints b -> 0 <= ib' < numBands b ->
  0 <= getIndex b ik ib < getNumStates b /\
  (getIndex b ik ib = getIndex b ik' ib' -> ik = ik' /\ ib = ib').
Proof.
  intros Hnb Hnp Hmax Hik Hib Hik' Hib'.
  assert (Hidx : forall i j, 0 <= i < numPoints b -> 0 <= j < numBands b ->
            getIndex b i j = i * numBands b + j /\
            0 <= i * numBands b + j < numBands b * numPoints b).
  { intros i j Hi Hj.
    assert (0 <= i * numBands b + j < numBands b * numPoints b) by nia.
    assert (0 <= i * numBands b <= LONG_MAX) by nia.
    unfold getIndex. rewrite (to_long_small (i * numBands b)) by lia.
    rewrite to_long_small by lia. auto. }
  destruct (Hidx ik ib Hik Hib) as [-> Hr].
  destruct (Hidx ik' ib' Hik' Hib') as [-> Hr'].
  unfold getNumStates, getNumPoints.
  rewrite to_long_small by lia.
  split; [exact Hr|].
  intros Heq.
  assert (ik = ik') by nia. subst ik'. split; [reflexivity | lia].
Qed.

Lemma getIndex_one_to_one_witness :
  let b := snd (construct [] 2 3) in
  (0 <= numBands b /\ 0 <= numPoints b /\
   numBands b * numPoints b <= LONG_MAX /\
   0 <= 2 < numPoints b /\ 0 <= 1 < numBands b /\
   0 <= 1 < numPoints b /\ 0 <= 0 < numBands b) /\
  0 <= getIndex b 2 1 < getNumStates b /\
  (getIndex b 2 1 = getIndex b 1 0 -> 2 = 1 /\ 1 = 0).
Proof.
  set (b := snd (construct [] 2 3)).
  assert (H1 : 0 <= numBands b) by (simpl; lia).
  assert (H2 : 0 <= numPoints b) by (simpl; lia).
  assert (H3 : numBands b * numPoints b <= LONG_MAX)
    by (unfold LONG_MAX; simpl; lia).
  assert (H4 : 0 <= 2 < numPoints b) by (simpl; lia).
  assert (H5 : 0 <= 1 < numBands b) by (simpl; lia).
  assert (H6 : 0 <= 1 < numPoints b) by (simpl; lia).
  assert (H7 : 0 <= 0 < numBands b) by (simpl; lia).
  split; [repeat split; lia|].
  exact (getIndex_one_to_one b 2 1 1 0 H1 H2 H3 H4 H5 H6 H7).
Defined.

(** *** Writing one column of a buffer *)

Lemma splice_length (buf e : list Z) (o : nat) :
  (o + length e <= length buf)%nat ->
  length (take o buf ++ e ++ drop (o + length e) buf) = length buf.
Proof.
  intros H. rewrite !length_app, length_take, length_drop. lia.
Qed.

Lemma splice_read (buf e : list Z) (o : nat) :
  (o + length e <= length buf)%nat ->
  take (length e) (drop o (take o buf ++ e ++ drop (o + length e) buf)) = e.
Proof.
  intros H.
  rewrite drop_app_length' by (rewrite length_take; lia).
  apply take_app_length.
Qed.

Lemma splice_lookup_out (buf e : list Z) (o p : nat) :
  (o + length e <= length buf)%nat ->
  (p < o \/ o + length e <= p)%nat ->
  (take o buf ++ e ++ drop (o + length e) buf) !! p = buf !! p.
Proof.
  intros H [Hlt | Hge].
  - rewrite lookup_app_l by (rewrite length_take; lia).
    apply lookup_take_lt. exact Hlt.
  - rewrite lookup_app_r by (rewrite length_take; lia).
    rewrite length_take.
    rewrite lookup_app_r by lia.
    rewrite lookup_drop. f_equal. lia.
Qed.

(** Columns other than the one written read as before. *)
Lemma splice_other_column (buf e : list Z) (o o' n : nat) :
  (o + length e <= length buf)%nat ->
  (o' + n <= o \/ o + length e <= o')%nat ->
  take n (drop o' (take o buf ++ e ++ drop (o + length e) buf))
  = take n (drop o' buf).
Proof.
  intros H Hdisj. apply list_eq. intros j.
  destruct (decide (j < n)%nat) as [Hj | Hj].
  - rewrite !lookup_take_lt, !lookup_drop by exact Hj.
    apply splice_lookup_out; [exact H | lia].
  - rewrite !lookup_take_ge by lia. reflexivity.
Qed.

(** *** Reading and writing through the object *)

(** What a state of point [ik] reads, for an object whose raw pointer is
    the start of the buffer at [a]. *)
Lemma state_energies_column (h : heap) (b : t) (a : nat) (buf : list Z) ik :
  rawEnergies b = mkPtr a 0 ->
  energiesCols b = numBands b ->
  0 <= numBands b -> 0 <= numPoints b ->
  numBands b * numPoints b <= LONG_MAX ->
  h !! a = Some buf ->
  Z.of_nat (length buf) = numBands b * numPoints b ->
  0 <= ik < numPoints b ->
  state_energies h b (getState b ik)
  = Some (take (Z.to_nat (numBands b))
            (drop (Z.to_nat (ik * numBands b)) buf)).
Proof.
  intros Hraw Hcols Hnb Hnp Hmax Hbuf Hlen Hik.
  unfold state_energies, getState, load, ptr_add. cbn [thisEn addr offset].
  rewrite Hraw, Hcols. cbn [addr offset]. rewrite Hbuf. cbn [mbind option_bind].
  rewrite to_long_small by (unfold LONG_MAX in *; nia).
  rewrite Z.add_0_l.
  destruct (decide _) as [Hok | Hbad]; [reflexivity|].
  exfalso. apply Hbad. nia.
Qed.

(** [setEnergies] on a valid column succeeds, and writes that column of
    the buffer of [energies]. *)
Lemma setEnergies_defined (h : heap) (b : t) (buf : list Z) ik e :
  h !! energies b = Some buf ->
  Z.of_nat (length buf) = numBands b * numPoints b ->
  0 <= numBands b ->
  0 <= ik < numPoints b ->
  length e = Z.to_nat (numBands b) ->
  setEnergies h b ik e =
    Some (<[energies b :=
              take (Z.to_nat (ik * numBands b)) buf ++ e ++
              drop (Z.to_nat (ik * numBands b) + length e) buf]> h).
Proof.
  intros Hbuf Hlen Hnb Hik He.
  unfold setEnergies. rewrite Hbuf. cbn [mbind option_bind].
  destruct (decide _) as [Hok | Hbad].
  - replace (Z.to_nat (ik * numBands b + numBands b))
      with (Z.to_nat (ik * numBands b) + length e)%nat
      by (rewrite He; nia).
    reflexivity.
  - exfalso. apply Hbad. auto.
Qed.

Lemma column_fits (b : t) (buf e : list Z) ik :
  Z.of_nat (length buf) = numBands b * numPoints b ->
  0 <= numBands b ->
  0 <= ik < numPoints b ->
  length e = Z.to_nat (numBands b) ->
  (Z.to_nat (ik * numBands b) + length e <= length buf)%nat.
Proof. intros Hlen Hnb Hik He. nia. Qed.

(** A write and the reads that follow it, for an object that owns its
    storage. *)
Lemma set_then_get (h : heap) (b : t) ik e :
  owns_storage h b ->
  0 <= ik < numPoints b ->
  length e = Z.to_nat (numBands b) ->
  exists h',
    setEnergies h b ik e = Some h' /\
    owns_storage h' b /\
    length h' = length h /\
    (forall a, a <> energies b -> h' !! a = h !! a) /\
    state_energies h' b (getState b ik) = Some e /\
    forall ik', 0 <= ik' < numPoints b -> ik' <> ik ->
      state_energies h' b (getState b ik')
      = state_energies h b (getState b ik').
Proof.
  intros (Hraw & Hcols & Hnb & Hnp & Hmax & buf & Hbuf & Hlen) Hik He.
  pose proof (column_fits b buf e ik Hlen Hnb Hik He) as Hfit.
  pose proof (lookup_lt_Some _ _ _ Hbuf) as Ha.
  eexists. split; [apply (setEnergies_defined h b buf); assumption|].
  set (buf' := take (Z.to_nat (ik * numBands b)) buf ++ e ++
               drop (Z.to_nat (ik * numBands b) + length e) buf).
  assert (Hbuf' : <[energies b := buf']> h !! energies b = Some buf')
    by (apply list_lookup_insert_eq; exact Ha).
  assert (Hlen' : Z.of_nat (length buf') = numBands b * numPoints b).
  { unfold buf'. rewrite splice_length by exact Hfit. exact Hlen. }
  split; [|split; [|split; [|split]]].
  - repeat split; try assumption. exists buf'. auto.
  - apply length_insert.
  - intros a Hne. apply list_lookup_insert_ne. auto.
  - rewrite (state_energies_column _ b (energies b) buf') by assumption.
    f_equal. rewrite <- He. apply splice_read. exact Hfit.
  - intros ik' Hik' Hne.
    rewrite (state_energies_column _ b (energies b) buf') by assumption.
    rewrite (state_energies_column h b (energies b) buf) by assumption.
    f_equal. unfold buf'. apply splice_other_column; [exact Hfit|].
    rewrite He. nia.
Qed.

(** The constructor leaves an object that owns its storage, with all
    energies zero. *)
Lemma construct_owns_storage (h : heap) (numBands_ numPoints_ : Z) :
  0 <= numBands_ -> 0 <= numPoints_ ->
  numBands_ * numPoints_ <= LONG_MAX ->
  owns_storage (fst (construct h numBands_ numPoints_))
               (snd (construct h numBands_ numPoints_)).
Proof.
  intros Hnb Hnp Hmax. unfold construct, alloc, owns_storage. simpl.
  repeat split; try assumption.
  exists (replicate (Z.to_nat (numBands_ * numPoints_)) 0). split.
  - apply list_lookup_middle. reflexivity.
  - rewrite length_replicate. nia.
Qed.

(** Round trip: on a freshly constructed band structure, the energies
    set for a point are the energies its state reads, and the states of
    the other points read what they read before. *)
Theorem setEnergies_getState_round_trip
    (h : heap) (numBands_ numPoints_ ik : Z) (e : list Z) :
  0 <= numBands_ -> 0 <= numPoints_ ->
  numBands_ * numPoints_ <= LONG_MAX ->
  0 <= ik < numPoints_ ->
  length e = Z.to_nat numBands_ ->
  let h0 := fst (construct h numBands_ numPoints_) in
  let b := snd (construct h numBands_ numPoints_) in
  exists h',
    setEnergies h0 b ik e = Some h' /\
    state_energies h' b (getState b ik) = Some e /\
    forall ik', 0 <= ik' < numPoints_ -> ik' <> ik ->
      state_energies h' b (getState b ik')
      = state_energies h0 b (getState b ik').
Proof.
  intros Hnb Hnp Hmax Hik He h0 b.
  pose proof (construct_owns_storage h numBands_ numPoints_ Hnb Hnp Hmax)
    as Hown.
  destruct (set_then_get h0 b ik e Hown) as (h' & Hset & _ & _ & _ & Hget & Hfr);
    [exact Hik | exact He |].
  exists h'. auto.
Qed.

Lemma setEnergies_getState_round_trip_witness :
  (0 <= 2 /\ 0 <= 3 /\ 2 * 3 <= LONG_MAX /\ 0 <= 1 < 3 /\
   length [7; 8] = Z.to_nat 2) /\
  let h0 := fst (construct [] 2 3) in
  let b := snd (construct [] 2 3) in
  exists h',
    setEnergies h0 b 1 [7; 8] = Some h' /\
    state_energies h' b (getState b 1) = Some [7; 8] /\
    forall ik', 0 <= ik' < 3 -> ik' <> 1 ->
      state_energies h' b (getState b ik')
      = state_energies h0 b (getState b ik').
Proof.
  assert (H1 : 0 <= 2) by lia.
  assert (H2 : 0 <= 3) by lia.
  assert (H3 : 2 * 3 <= LONG_MAX) by (unfold LONG_MAX; lia).
  assert (H4 : 0 <= 1 < 3) by lia.
  assert (H5 : length [7; 8] = Z.to_nat 2) by reflexivity.
  split; [repeat split; auto; lia|].
  exact (setEnergies_getState_round_trip [] 2 3 1 [7; 8] H1 H2 H3 H4 H5).
Defined.

End FullBandStructureFacts.

(** ** Bands, states and copies of a band structure *)

Module FullBandStructureMore.

Import FullBandStructure FullBandStructureFacts.

(** A state reads only the buffer its pointer points into. *)
Lemma state_energies_same_cell (h h' : heap) (b : t) (s : State) :
  h !! addr (thisEn s) = h' !! addr (thisEn s) ->
  state_energies h b s = state_energies h' b s.
Proof. intros H. unfold state_energies, load. rewrite H. reflexivity. Qed.

(** The two views of the energies agree: band [ib] of the state of point
    [ik], and entry [ik] of the energies of band [ib], are the entry of the
    buffer at [getIndex ik ib]. *)
Theorem state_and_band_views_agree (h : heap) (b : t) (ik ib : Z) :
  owns_storage h b ->
  0 <= ik < numPoints b -> 0 <= ib < numBands b ->
  exists buf x,
    h !! energies b = Some buf /\
    buf !! Z.to_nat (getIndex b ik ib) = Some x /\
    (col ← state_energies h b (getState b ik); col !! Z.to_nat ib) = Some x /\
    (row ← getBandEnergies h b ib; row !! Z.to_nat ik) = Some x.
Proof.
  intros (Hraw & Hcols & Hnb & Hnp & Hmax & buf & Hbuf & Hlen) Hik Hib.
  assert (Hidx : getIndex b ik ib = ik * numBands b + ib).
  { unfold getIndex.
    rewrite (to_long_small (ik * numBands b)) by (unfold LONG_MAX in *; nia).
    apply to_long_small. unfold LONG_MAX in *. nia. }
  assert (Hin : (Z.to_nat (ik * numBands b + ib) < length buf)%nat) by nia.
  destruct (lookup_lt_is_Some_2 buf _ Hin) as [x Hx].
  exists buf, x. split; [exact Hbuf|]. split; [rewrite Hidx; exact Hx|].
  split.
  - rewrite (state_energies_column h b (energies b) buf) by assumption.
    cbn [mbind option_bind].
    rewrite lookup_take_lt by lia. rewrite lookup_drop.
    rewrite <- Hx. f_equal. nia.
  - unfold getBandEnergies. rewrite Hbuf. cbn [mbind option_bind].
    destruct (decide _) as [_ | Hbad]; [|exfalso; apply Hbad; exact Hib].
    assert (Hsome : is_Some
              (mapM (fun ik0 : nat =>
                       buf !! Z.to_nat (Z.of_nat ik0 * numBands b + ib))
                    (seq 0 (Z.to_nat (numPoints b))))).
    { apply mapM_is_Some_2. apply Forall_forall. intros j Hj.
      apply elem_of_seq in Hj. apply lookup_lt_is_Some_2. nia. }
    destruct Hsome as [row Hrow]. rewrite Hrow. cbn [mbind option_bind].
    apply mapM_Some_1 in Hrow.
    assert (Hseq : seq 0 (Z.to_nat (numPoints b)) !! Z.to_nat ik
                   = Some (Z.to_nat ik))
      by (rewrite lookup_seq_lt by lia; reflexivity).
    destruct (Forall2_lookup_l _ _ _ _ _ Hrow Hseq) as (y & Hy & Hfy).
    rewrite Hy. rewrite <- Hx, <- Hfy. f_equal. lia.
Qed.

Lemma state_and_band_views_agree_witness :
  let h := [[10; 11; 20; 21; 30; 31]] in
  let b := snd (construct [] 2 3) in
  (owns_storage h b /\ 0 <= 2 < numPoints b /\ 0 <= 1 < numBands b) /\
  exists buf x,
    h !! energies b = Some buf /\
    buf !! Z.to_nat (getIndex b 2 1) = Some x /\
    (col ← state_energies h b (getState b 2); col !! Z.to_nat 1) = Some x /\
    (row ← getBandEnergies h b 1; row !! Z.to_nat 2) = Some x.
Proof.
  set (h := [[10; 11; 20; 21; 30; 31]]).
  set (b := snd (construct [] 2 3)).
  assert (H1 : owns_storage h b).
  { unfold owns_storage, LONG_MAX. simpl.
    repeat split; try lia. eexists. split; reflexivity. }
  assert (H2 : 0 <= 2 < numPoints b) by (simpl; lia).
  assert (H3 : 0 <= 1 < numBands b) by (simpl; lia).
  split; [auto|].
  exact (state_and_band_views_agree h b 2 1 H1 H2 H3).
Defined.

(** A copy keeps the raw pointer of the original.  Its matrix is a buffer
    of its own, but its states read the buffer of the original: energies
    set on the original afterwards show in the states of the copy, and
    energies set on the copy reach its own matrix and not its states. *)
Theorem copy_reads_the_original (h : heap) (b : t) :
  owns_storage h b ->
  exists h1 c,
    copy h b = Some (h1, c) /\
    energies c <> energies b /\
    addr (rawEnergies c) = energies b /\
    forall ik e,
      0 <= ik < numPoints b -> length e = Z.to_nat (numBands b) ->
      (exists h2,
         setEnergies h1 b ik e = Some h2 /\
         state_energies h2 c (getState c ik) = Some e) /\
      (exists h2 buf2,
         setEnergies h1 c ik e = Some h2 /\
         h2 !! energies c = Some buf2 /\
         take (Z.to_nat (numBands b))
           (drop (Z.to_nat (ik * numBands b)) buf2) = e /\
         state_energies h2 c (getState c ik)
         = state_energies h b (getState b ik)).
Proof.
  intros Hown.
  pose proof Hown as (Hraw & Hcols & Hnb & Hnp & Hmax & buf & Hbuf & Hlen).
  pose proof (lookup_lt_Some _ _ _ Hbuf) as Ha.
  unfold copy. rewrite Hbuf. cbn [mbind option_bind alloc].
  eexists _, _. split; [reflexivity|]. cbn [energies rawEnergies].
  split; [lia|]. split; [rewrite Hraw; reflexivity|].
  intros ik e Hik He.
  set (h1 := h ++ [buf]).
  set (c := mk (numBands b) (numAtoms b) (numPoints b) (length h)
               (rawEnergies b) (energiesCols b) (velocitiesCols b)
               (eigenvectorsCols b)).
  assert (Hb1 : h1 !! energies b = Some buf)
    by (apply lookup_app_l_Some; exact Hbuf).
  assert (Hc1 : h1 !! energies c = Some buf)
    by (apply list_lookup_middle; reflexivity).
  assert (Hown1 : owns_storage h1 b).
  { repeat split; try assumption. exists buf. auto. }
  split.
  - destruct (set_then_get h1 b ik e Hown1 Hik He)
      as (h2 & Hset & _ & _ & _ & Hget & _).
    exists h2. split; [exact Hset|]. exact Hget.
  - pose proof (column_fits b buf e ik Hlen Hnb Hik He) as Hfit.
    eexists _, _.
    split; [apply (setEnergies_defined h1 c buf); assumption|].
    split.
    { apply list_lookup_insert_eq. unfold h1. rewrite length_app.
      cbn [energies c length]. lia. }
    split.
    { rewrite <- He. apply splice_read. exact Hfit. }
    change (state_energies ?h2 c (getState c ik))
      with (state_energies h2 b (getState b ik)).
    transitivity (state_energies h1 b (getState b ik)).
    + apply state_energies_same_cell.
      cbn [getState thisEn ptr_add addr]. rewrite Hraw. cbn [addr].
      apply list_lookup_insert_ne. cbn [energies c]. lia.
    + apply state_energies_same_cell.
      cbn [getState thisEn ptr_add addr]. rewrite Hraw. cbn [addr].
      transitivity (Some buf); [exact Hb1 | symmetry; exact Hbuf].
Qed.

Lemma copy_reads_the_original_witness :
  let h := fst (construct [] 2 3) in
  let b := snd (construct [] 2 3) in
  owns_storage h b /\
  exists h1 c,
    copy h b = Some (h1, c) /\
    energies c <> energies b /\
    addr (rawEnergies c) = energies b /\
    forall ik e,
      0 <= ik < numPoints b -> length e = Z.to_nat (numBands b) ->
      (exists h2,
         setEnergies h1 b ik e = Some h2 /\
         state_energies h2 c (getState c ik) = Some e) /\
      (exists h2 buf2,
         setEnergies h1 c ik e = Some h2 /\
         h2 !! energies c = Some buf2 /\
         take (Z.to_nat (numBands b))
           (drop (Z.to_nat (ik * numBands b)) buf2) = e /\
         state_energies h2 c (getState c ik)
         = state_energies h b (getState b ik)).
Proof.
  assert (H : owns_storage (fst (construct [] 2 3)) (snd (construct [] 2 3))).
  { apply construct_owns_storage; unfold LONG_MAX; lia. }
  split; [exact H|].
  exact (copy_reads_the_original (fst (construct [] 2 3))
           (snd (construct [] 2 3)) H).
Defined.

Example copy_then_set_on_copy :
  let h := fst (construct [] 2 3) in
  let b := snd (construct [] 2 3) in
  ('(h1, c) ← copy h b;
   h2 ← setEnergies h1 c 1 [7; 8];
   col ← state_energies h2 c (getState c 1);
   row ← getBandEnergies h2 c 0;
   Some (col, row))
  = Some ([0; 0], [0; 7; 0]).
Proof. reflexivity. Qed.

End FullBandStructureMore.

(** ** The band offset *)

Module ElPhQeToPhoebeAppFacts.

Import ElPhQeToPhoebeApp CIntFacts.

Local Open Scope Q_scope.

Lemma readEig_length r entries :
  (length (readEig r entries) <= length entries)%nat.
Proof.
  induction entries as [|[[ib ik] x] rest IH]; simpl; [lia|].
  destruct (ik >? 1)%Z; simpl; lia.
Qed.

(** A read outside the Wannier energies makes the whole row undefined. *)
Lemma difference_row_undefined eQE eW (i : nat) ibs :
  forall acc ib,
  In ib ibs -> eW !! (ib + i)%nat = None ->
  difference_row eQE eW i ibs acc = None.
Proof.
  induction ibs as [|ib0 rest IH]; intros acc ib Hin Hnone; [destruct Hin|].
  simpl. destruct (eQE !! ib0) as [x|]; [|reflexivity].
  cbn [mbind option_bind].
  destruct Hin as [-> | Hin].
  - rewrite Hnone. reflexivity.
  - destruct (eW !! (ib0 + i)%nat) as [y|]; [|reflexivity].
    cbn [mbind option_bind]. apply (IH _ ib); assumption.
Qed.

Lemma difference_rows_undefined eQE eW nW idxs (i : nat) :
  In i idxs ->
  difference_row eQE eW i (seq 0 nW) 0 = None ->
  difference_rows eQE eW nW idxs = None.
Proof.
  induction idxs as [|i0 rest IH]; intros Hin Hnone; [destruct Hin|].
  simpl. destruct Hin as [-> | Hin].
  - rewrite Hnone. reflexivity.
  - destruct (difference_row eQE eW i0 (seq 0 nW) 0); [|reflexivity].
    cbn [mbind option_bind]. rewrite (IH Hin Hnone). reflexivity.
Qed.

Lemma difference_rows_length eQE eW nW idxs ds :
  difference_rows eQE eW nW idxs = Some ds -> length ds = length idxs.
Proof.
  revert ds. induction idxs as [|i0 rest IH]; intros ds H; simpl in H.
  - inversion H. reflexivity.
  - destruct (difference_row eQE eW i0 (seq 0 nW) 0); [|discriminate].
    cbn [mbind option_bind] in H.
    destruct (difference_rows eQE eW nW rest) as [ds'|]; [|discriminate].
    cbn [mbind option_bind] in H. inversion H. simpl.
    rewrite (IH ds' eq_refl). reflexivity.
Qed.

(** Without Wannier bands every entry of [difference] stays zero. *)
Lemma difference_rows_no_bands eQE eW idxs :
  difference_rows eQE eW 0 idxs = Some (map (fun _ => 0) idxs).
Proof.
  induction idxs as [|i0 rest IH]; [reflexivity|].
  simpl. rewrite IH. reflexivity.
Qed.

Lemma minCoeff_zeros {A} (l : list A) : minCoeff 0 (map (fun _ => 0) l) = 0.
Proof.
  unfold minCoeff. induction l as [|x l IH]; [reflexivity|].
  simpl. exact IH.
Qed.

Lemma Qeq_bool_same (d : Q) : Qeq_bool d d = true.
Proof. apply Qeq_bool_iff. reflexivity. Qed.

(** With at least one Wannier band and at least two candidate offsets,
    the second row reads past the end of the Wannier energies. *)
Lemma difference_rows_two_candidates eQE eW (pv : nat) :
  (1 <= length eW)%nat -> (2 <= pv)%nat ->
  difference_rows eQE eW (length eW) (seq 0 pv) = None.
Proof.
  intros HW Hpv.
  apply (difference_rows_undefined _ _ _ _ 1%nat).
  - apply in_seq. lia.
  - apply (difference_row_undefined _ _ _ _ _ (length eW - 1)%nat).
    + apply in_seq. lia.
    + apply lookup_ge_None. lia.
Qed.

(** [computeOffset] can only ever return the offset 0: whenever it
    completes without reading outside a vector and without raising, the
    value is 0, whatever the energies are. *)
Theorem computeOffset_only_zero (energyRyToEv : Q) (energiesQEAtZero : list Q)
    (k : Q * Q * Q) (entries : list (Z * Z * Q)) (off : Z) :
  (Z.of_nat (length energiesQEAtZero) < INT_MAX)%Z ->
  (Z.of_nat (length entries) <= INT_MAX)%Z ->
  computeOffset energyRyToEv energiesQEAtZero k entries = Some (Ok off) ->
  off = 0%Z.
Proof.
  intros HF HE. unfold computeOffset. destruct k as [[kx ky] kz].
  destruct (Qlt_le_dec _ _); [discriminate|].
  set (eW := readEig energyRyToEv entries).
  pose proof (readEig_length energyRyToEv entries) as HW. fold eW in HW.
  rewrite (to_int_small (Z.of_nat (length eW)))
    by (unfold INT_MAX in *; lia).
  rewrite (to_int_small (Z.of_nat (length energiesQEAtZero)))
    by (unfold INT_MAX in *; lia).
  rewrite (to_int_small (_ - _)) by (unfold INT_MAX in *; lia).
  rewrite to_int_small by (unfold INT_MAX in *; lia).
  rewrite Nat2Z.id.
  set (pv := (Z.of_nat (length energiesQEAtZero) - Z.of_nat (length eW) + 1)%Z).
  destruct (pv <? 0)%Z eqn:Hneg; [discriminate|].
  apply Z.ltb_ge in Hneg.
  destruct (difference_rows energiesQEAtZero eW (length eW)
              (seq 0 (Z.to_nat pv))) as [difference|] eqn:Hrows;
    [|discriminate].
  cbn [mbind option_bind].
  assert (Hcase : (Z.to_nat pv = 0 \/ Z.to_nat pv = 1 \/
                   (2 <= Z.to_nat pv /\ length eW = 0))%nat).
  { destruct (Nat.lt_ge_cases (Z.to_nat pv) 2) as [Hlt | Hge]; [lia|].
    destruct (Nat.eq_dec (length eW) 0%nat) as [H0 | Hpos]; [lia|].
    rewrite difference_rows_two_candidates in Hrows by lia.
    discriminate Hrows. }
  destruct Hcase as [H0 | [H1 | [H2 HW0]]].
  - rewrite H0 in Hrows. simpl in Hrows. inversion Hrows. subst.
    simpl. discriminate.
  - pose proof (difference_rows_length _ _ _ _ _ Hrows) as Hlen.
    rewrite H1 in Hlen. simpl in Hlen.
    destruct difference as [|d [|d' ds]]; try discriminate Hlen.
    unfold minCoeff. simpl. rewrite Qeq_bool_same. simpl.
    intros Heq. inversion Heq. reflexivity.
  - rewrite HW0, difference_rows_no_bands in Hrows.
    destruct (Z.to_nat pv) as [|n]; [lia|].
    simpl in Hrows. inversion Hrows. subst.
    rewrite minCoeff_zeros. simpl.
    intros Heq. inversion Heq. reflexivity.
Qed.

Lemma computeOffset_only_zero_witness :
  ((Z.of_nat (length [1; 2; 3]) < INT_MAX)%Z /\
   (Z.of_nat (length [(1%Z, 1%Z, 1); (2%Z, 1%Z, 5); (3%Z, 1%Z, 9);
                      (1%Z, 2%Z, 4)]) <= INT_MAX)%Z /\
   computeOffset 1 [1; 2; 3] (0, 0, 0)
     [(1%Z, 1%Z, 1); (2%Z, 1%Z, 5); (3%Z, 1%Z, 9); (1%Z, 2%Z, 4)]
   = Some (Ok 0%Z)) /\
  0%Z = 0%Z.
Proof.
  assert (H1 : (Z.of_nat (length [1; 2; 3]) < INT_MAX)%Z)
    by (unfold INT_MAX; simpl; lia).
  assert (H2 : (Z.of_nat (length [(1%Z, 1%Z, 1); (2%Z, 1%Z, 5);
                                  (3%Z, 1%Z, 9); (1%Z, 2%Z, 4)])
                <= INT_MAX)%Z)
    by (unfold INT_MAX; simpl; lia).
  assert (H3 : computeOffset 1 [1; 2; 3] (0, 0, 0)
                 [(1%Z, 1%Z, 1); (2%Z, 1%Z, 5); (3%Z, 1%Z, 9);
                  (1%Z, 2%Z, 4)]
               = Some (Ok 0%Z)) by reflexivity.
  split; [auto|].
  exact (computeOffset_only_zero 1 [1; 2; 3] (0, 0, 0)
           [(1%Z, 1%Z, 1); (2%Z, 1%Z, 5); (3%Z, 1%Z, 9); (1%Z, 2%Z, 4)]
           0%Z H1 H2 H3).
Defined.

(** More QE bands than Wannier bands, the case the offset is meant for:
    the search reads past the end of the Wannier energies. *)
Example computeOffset_more_bands_undefined :
  computeOffset 1 [1; 2; 3] (0, 0, 0)
    [(1%Z, 1%Z, 2); (2%Z, 1%Z, 3); (1%Z, 2%Z, 5)] = None.
Proof. reflexivity. Qed.

End ElPhQeToPhoebeAppFacts.

(** ** The solvers with an empty budget *)

Module ZeroBudget.

Import PhononTransportApp PhononTransportAppFacts.

Lemma iterative_solver_no_budget_witness :
  getMaxIterationsBTE Synthetic.ctx_zero_budget <= 0 /\
  Synthetic.iterative_solver (1 # 2) Synthetic.ctx_zero_budget 1%Q 1%Q =
    ([Diagonal; TCondPrint 1%Q;
      TCondOutputJSON 1%Q "omini_phonon_thermal_cond.json"], Ok 1%Q).
Proof.
  assert (H : getMaxIterationsBTE Synthetic.ctx_zero_budget <= 0)
    by (simpl; lia).
  split; [exact H|].
  exact (iterative_solver_no_budget (W := Synthetic.system (1 # 2))
           Synthetic.ctx_zero_budget 1%Q 1%Q H).
Defined.

Lemma variational_solver_no_budget_witness :
  getMaxIterationsBTE Synthetic.ctx_zero_budget <= 0 /\
  variational_solver (W := Synthetic.system (1 # 2))
    Synthetic.ctx_zero_budget 1%Q 1%Q =
    ([Diagonal; Diagonal; Dot; Dot; TCondPrint 1%Q;
      TCondOutputJSON 1%Q "variational_phonon_thermal_cond.json"],
     Ok 1%Q).
Proof.
  assert (H : getMaxIterationsBTE Synthetic.ctx_zero_budget <= 0)
    by (simpl; lia).
  split; [exact H|].
  exact (variational_solver_no_budget (W := Synthetic.system (1 # 2))
           Synthetic.ctx_zero_budget 1%Q 1%Q H).
Defined.

End ZeroBudget.
